(** * codelens-cli: the scan pipeline of [src/index.ts]

    A shallow embedding of the file discovery ([getFiles]), the per-file
    analysis ([analyzeFile]), the fan-out through [Promise.all], the
    aggregation ([displayResults]) and the [scan] command action, followed
    by the properties of the pipeline.

    Modelling conventions.
    - A JavaScript string is a [string]: a sequence of 8-bit code units.
      The case and white-space functions below act on the ASCII range and
      leave every other code unit as it is.
    - A call that may throw (or a promise that may reject) yields a
      [js_result]; the thrown [Error] is kept as its [message].
    - The response body of the scan endpoint is modelled at the type the
      service contract gives it: an object with the optional fields [file]
      and [vulnerabilities]. *)

From Stdlib Require Import Ascii String ZArith Bool Lia.
From stdpp Require Import base option list strings.

Local Open Scope Z_scope.
Local Open Scope nat_scope.

(** ** JavaScript values and built-ins *)

Module Js.

(** The outcome of a call that may throw. *)
Inductive js_result (A : Type) : Type :=
| Ok (value : A)
| Throw (message : string).
Arguments Ok {A} value.
Arguments Throw {A} message.

(** Truthiness of an optional string ([undefined] and [""] are falsy). *)
Definition truthy (o : option string) : bool :=
  match o with
  | Some s => negb (String.eqb s "")
  | None => false
  end.

(** [a || b] on optional strings. *)
Definition or_else (o : option string) (d : string) : string :=
  match o with
  | Some s => if String.eqb s "" then d else s
  | None => d
  end.

(** [s || undefined]. *)
Definition or_undefined (o : option string) : option string :=
  if truthy o then o else None.

Definition is_upper (c : ascii) : bool :=
  (65 <=? nat_of_ascii c) && (nat_of_ascii c <=? 90).

Definition is_lower (c : ascii) : bool :=
  (97 <=? nat_of_ascii c) && (nat_of_ascii c <=? 122).

Definition lower_char (c : ascii) : ascii :=
  if is_upper c then ascii_of_nat (nat_of_ascii c + 32) else c.

Definition upper_char (c : ascii) : ascii :=
  if is_lower c then ascii_of_nat (nat_of_ascii c - 32) else c.

(** [String.prototype.toLowerCase]. *)
Fixpoint toLowerCase (s : string) : string :=
  match s with
  | EmptyString => EmptyString
  | String c r => String (lower_char c) (toLowerCase r)
  end.

(** [String.prototype.toUpperCase]. *)
Fixpoint toUpperCase (s : string) : string :=
  match s with
  | EmptyString => EmptyString
  | String c r => String (upper_char c) (toUpperCase r)
  end.

(** Does the string hold an uppercase letter? *)
Fixpoint has_upper (s : string) : bool :=
  match s with
  | EmptyString => false
  | String c r => is_upper c || has_upper r
  end.

(** White space and line terminators (tab, LF, VT, FF, CR, space). *)
Definition is_white (c : ascii) : bool :=
  let n := nat_of_ascii c in
  ((9 <=? n) && (n <=? 13)) || (n =? 32).

Fixpoint trimStart (s : string) : string :=
  match s with
  | EmptyString => EmptyString
  | String c r => if is_white c then trimStart r else s
  end.

Fixpoint trimEnd (s : string) : string :=
  match s with
  | EmptyString => EmptyString
  | String c r =>
      match trimEnd r with
      | EmptyString => if is_white c then EmptyString else String c EmptyString
      | r' => String c r'
      end
  end.

(** [String.prototype.trim]. *)
Definition trim (s : string) : string := trimEnd (trimStart s).

(** [String.prototype.startsWith]. *)
Definition startsWith (s p : string) : bool := String.prefix p s.

(** [s.split(sep)] for a separator of one code unit: never empty,
    [split "," ""] is [[""]]. *)
Fixpoint split (sep : ascii) (s : string) : list string :=
  match s with
  | EmptyString => [EmptyString]
  | String c r =>
      if Ascii.eqb c sep then EmptyString :: split sep r
      else match split sep r with
           | h :: t => String c h :: t
           | [] => [String c EmptyString]
           end
  end.

(** [Array.prototype.includes] on an array of strings. *)
Definition includes (l : list string) (x : string) : bool :=
  existsb (String.eqb x) l.

End Js.
Export Js.

(** ** [path.extname] (POSIX)

    The right-to-left scan of Node's [path.posix.extname], with the same
    five variables; [-1] marks "not seen yet". *)

Module Path.

Record scan := Scan {
  startDot : Z;
  startPart : Z;
  end_ : Z;
  matchedSlash : bool;
  preDotState : Z
}.

Definition scan0 : scan := Scan (-1) 0 (-1) true 0.

(** What one non-separator character does to the scan state. *)
Definition see (i : Z) (code : ascii) (st : scan) : scan :=
  let st1 :=
    if (end_ st =? -1)%Z
    then Scan (startDot st) (startPart st) (i + 1)%Z false (preDotState st)
    else st in
  if Ascii.eqb code "."
  then
    if (startDot st1 =? -1)%Z
    then Scan i (startPart st1) (end_ st1) (matchedSlash st1) (preDotState st1)
    else if negb (preDotState st1 =? 1)%Z
    then Scan (startDot st1) (startPart st1) (end_ st1) (matchedSlash st1) 1%Z
    else st1
  else
    if negb (startDot st1 =? -1)%Z
    then Scan (startDot st1) (startPart st1) (end_ st1) (matchedSlash st1) (-1)%Z
    else st1.

(** [for (let i = n - 1; i >= 0; --i)]. *)
Fixpoint loop (path : string) (n : nat) (st : scan) : scan :=
  match n with
  | O => st
  | S i =>
      match String.get i path with
      | None => st
      | Some code =>
          if Ascii.eqb code "/"
          then
            if negb (matchedSlash st)
            then Scan (startDot st) (Z.of_nat i + 1)%Z (end_ st)
                      (matchedSlash st) (preDotState st)
            else loop path i st
          else loop path i (see (Z.of_nat i) code st)
      end
  end.

Definition extname (path : string) : string :=
  let st := loop path (String.length path) scan0 in
  if (startDot st =? -1)%Z
     || (end_ st =? -1)%Z
     || (preDotState st =? 0)%Z
     || ((preDotState st =? 1)%Z
         && (startDot st =? end_ st - 1)%Z
         && (startDot st =? startPart st + 1)%Z)
  then EmptyString
  else String.substring (Z.to_nat (startDot st))
                        (Z.to_nat (end_ st - startDot st)) path.

End Path.
Export Path.

(** ** FileDiscovery: [getFiles] *)

(** What [statSync] and [readdirSync] report of a path.  [statSync]
    follows symbolic links, so a link is seen as its target. *)
#[local] Unset Elimination Schemes.
Inductive node : Type :=
| RegularFile                                  (* stat.isFile() *)
| Special                                      (* neither file nor directory *)
| StatError                                    (* statSync throws *)
| LockedDirectory                              (* isDirectory(), readdirSync throws *)
| Directory (items : list (string * node)).    (* isDirectory(), readdirSync lists items *)
#[local] Set Elimination Schemes.

Definition isDirectory (n : node) : bool :=
  match n with
  | LockedDirectory | Directory _ => true
  | _ => false
  end.

Definition isFile (n : node) : bool :=
  match n with
  | RegularFile => true
  | _ => false
  end.

Section Discovery.

(** [path.join], of Node's library; discovery is parametric in it. *)
Variable join : string -> string -> string.

(** [getFiles(dir, extensions)], where [n] is what the file system holds
    at [dir].  The [try] encloses the whole [for] loop: an exception of
    [readdirSync] leaves [files] empty, an exception of [statSync] ends
    the loop with the files pushed so far. *)
Fixpoint getFiles (extensions : list string) (dir : string) (n : node)
  : list string :=
  match n with
  | Directory items =>
      (fix loop (items : list (string * node)) : list string :=
         match items with
         | [] => []
         | (item, child) :: rest =>
             let fullPath := join dir item in
             match child with
             | StatError => []
             | _ =>
                 if isDirectory child
                    && negb (startsWith item ".")
                    && negb (String.eqb item "node_modules")
                 then getFiles extensions fullPath child ++ loop rest
                 else if isFile child
                         && includes extensions (toLowerCase (extname item))
                 then fullPath :: loop rest
                 else loop rest
             end
         end) items
  | _ => []
  end.

End Discovery.

(** ** Data model of the scan endpoint *)

Module Vuln.
Record t := Make {
  line : Z;
  severity : string;
  message : string;
  cwe : option string
}.
End Vuln.

Module Result.
(** The parsed body of a scan response; an absent field is [None]. *)
Record t := Make {
  file : option string;
  vulnerabilities : option (list Vuln.t)
}.
End Result.

(** What [analyzeFile] returns: the parsed body, or [null]. *)
Definition Outcome : Type := option Result.t.

Module Request.
(** The body of the POST, before [JSON.stringify]. *)
Record t := Make {
  code : string;
  language : option string
}.
End Request.

Module Response.
Record t := Make {
  status : Z;
  statusText : string;
  json : js_result Result.t      (* what [response.json()] settles to *)
}.
(** [response.ok]: the status is in the range 200-299. *)
Definition ok (r : t) : bool := ((200 <=? status r) && (status r <=? 299))%Z.
End Response.

Module Options.
(** The options object commander hands to the action. *)
Record t := Make {
  file : option string;
  directory : option string;
  language : option string;
  extensions : option string
}.
End Options.

(** The world outside the process: environment, file system, service.
    [fetch] is a function of the request: a deterministic service. *)
Record Env := {
  CODELENS_API_URL : option string;
  readFileSync : string -> js_result string;
  lookup : string -> node;
  fetch : string -> Request.t -> js_result Response.t
}.

Definition API_URL (w : Env) : string :=
  or_else (CODELENS_API_URL w) "http://localhost:3000".

(** ** Output *)

Inductive color := red | yellow | gray.

(** The lines [displayResults] prints. *)
Inductive report_line :=
| Rule
| Title
| FileHeading (file : option string)
| Finding (c : color) (label : string) (line : Z) (message : string)
| CweLine (cwe : string)
| Total (totalVulns : nat)
| FixIssues
| NoIssues.

Inductive event :=
| SpinnerStart (text : string)
| SpinnerFound (files : nat)
| SpinnerSucceed (text : string)
| SpinnerFail (text : string)
| Post (url : string) (body : Request.t)
| ConsoleError (text : string)
| ConsoleLog (l : report_line).

(** ** Effects: a log of events and a result that may be thrown *)

Definition Eff (A : Type) : Type := (list event * js_result A)%type.

Definition ret {A} (a : A) : Eff A := ([], Ok a).

Definition throw {A} (message : string) : Eff A := ([], Throw message).

Definition emit (e : event) : Eff unit := ([e], Ok tt).

Definition lift {A} (r : js_result A) : Eff A := ([], r).

Definition bind {A B} (m : Eff A) (k : A -> Eff B) : Eff B :=
  match m with
  | (l, Ok a) => let '(l', r) := k a in (l ++ l', r)
  | (l, Throw e) => (l, Throw e)
  end.

(** [try { body } catch (error) { handler(error.message) }]. *)
Definition try_catch {A} (body : Eff A) (handler : string -> Eff A) : Eff A :=
  match body with
  | (l, Ok a) => (l, Ok a)
  | (l, Throw e) => let '(l', r) := handler e in (l ++ l', r)
  end.

Declare Scope eff_scope.
Delimit Scope eff_scope with eff.
Notation "'let*' x ':=' m 'in' k" := (bind m (fun x => k))
  (at level 10, x name, m at level 100, k at level 200) : eff_scope.
Notation "m '>>' k" := (bind m (fun _ => k))
  (at level 100, k at level 200, right associativity) : eff_scope.

(** ** AnalysisClient: [analyzeFile] *)

(** [`${API_URL}/api/v1/security/scan`]. *)
Definition scan_url (w : Env) : string := API_URL w +:+ "/api/v1/security/scan".

(** [{ code, language: options.language || undefined }]. *)
Definition scan_request (code : string) (options : Options.t) : Request.t :=
  Request.Make code (or_undefined (Options.language options)).

Definition analyzeFile (w : Env) (filePath : string) (options : Options.t)
  : Eff Outcome :=
  (emit (SpinnerStart ("Analyzing " +:+ filePath +:+ "...")) >>
   try_catch
     (let* code := lift (readFileSync w filePath) in
      let url := scan_url w in
      let body := scan_request code options in
      emit (Post url body) >>
      let* response := lift (fetch w url body) in
      (if negb (Response.ok response)
       then throw ("API error: " +:+ Response.statusText response)
       else ret tt) >>
      let* result := lift (Response.json response) in
      emit (SpinnerSucceed ("Analyzed " +:+ filePath)) >>
      ret (Some result))
     (fun message =>
        emit (SpinnerFail ("Failed to analyze " +:+ filePath +:+ ": " +:+ message)) >>
        ret None))%eff.

(** ** ScanOrchestrator: [Promise.all]

    [Promise_all ps order]: [ps] lists, in input order, what each promise
    settles to; [order] lists the indices of the promises in the order in
    which they settle.  A fulfilled promise stores its value at its own
    index of [values]; the first rejection rejects the whole; the result
    is fulfilled once no element of [values] is missing.  [None]: some
    promise never settles and the result stays pending. *)

Fixpoint settle {A} (ps : list (js_result A)) (order : list nat)
  (values : list (option A)) : option (js_result (list A)) :=
  match order with
  | [] => None
  | i :: rest =>
      match ps !! i with
      | Some (Ok v) =>
          let values' := <[i := Some v]> values in
          match mapM id values' with
          | Some vs => Some (Ok vs)
          | None => settle ps rest values'
          end
      | Some (Throw e) => Some (Throw e)
      | None => settle ps rest values
      end
  end.

Definition Promise_all {A} (ps : list (js_result A)) (order : list nat)
  : option (js_result (list A)) :=
  match ps with
  | [] => Some (Ok [])
  | _ => settle ps order (replicate (length ps) None)
  end.

(** ** ResultAggregator: [displayResults] *)

Definition severity_color (severity : string) : color :=
  if String.eqb severity "critical" then red
  else if String.eqb severity "high" then yellow
  else if String.eqb severity "medium" then yellow
  else gray.

(** The lines printed for one vulnerability. *)
Definition show_vuln (vuln : Vuln.t) : list report_line :=
  Finding (severity_color (Vuln.severity vuln))
          (toUpperCase (Vuln.severity vuln))
          (Vuln.line vuln) (Vuln.message vuln)
  :: (if truthy (Vuln.cwe vuln)
      then [CweLine (default ""%string (Vuln.cwe vuln))]
      else []).

(** One turn of [for (const result of results)]; the state is
    [totalVulns] and the lines printed so far. *)
Definition display_step (st : nat * list report_line) (result : Outcome)
  : nat * list report_line :=
  match result with
  | None => st                                            (* continue *)
  | Some r =>
      let vulns := default [] (Result.vulnerabilities r) in
      let totalVulns := fst st + length vulns in
      if 0 <? length vulns
      then (totalVulns,
            snd st ++ FileHeading (Result.file r) :: flat_map show_vuln vulns)
      else (totalVulns, snd st)
  end.

Definition display_loop (results : list Outcome) : nat * list report_line :=
  fold_left display_step results (0, [Rule; Title; Rule]).

(** The value of [totalVulns] after the loop. *)
Definition totalVulns (results : list Outcome) : nat :=
  fst (display_loop results).

Definition displayResults (results : list Outcome) : list report_line :=
  snd (display_loop results)
  ++ [Total (totalVulns results);
      if 0 <? totalVulns results then FixIssues else NoIssues].

(** ** The [scan] command *)

Definition default_extensions : list string :=
  [".js"; ".ts"; ".jsx"; ".tsx"; ".py"; ".go"; ".java"; ".rb"; ".php";
   ".cs"; ".c"; ".cpp"; ".rs"]%string.

(** [e.trim().startsWith('.') ? e.trim() : `.${e.trim()}`]. *)
Definition dotted (e : string) : string :=
  if startsWith (trim e) "." then trim e else "." +:+ trim e.

Definition scan_extensions (options : Options.t) : list string :=
  if truthy (Options.extensions options)
  then map dotted (split "," (default ""%string (Options.extensions options)))
  else default_extensions.

(** How a run of the process ends. *)
Inductive ending :=
| Exit (code : Z)      (* [process.exit(code)], or the normal end with code 0 *)
| Pending.             (* the awaited promise never settles *)

Record run := Run {
  log : list event;
  results : option (list Outcome);
  end_of_run : ending
}.

Section Scan.

Variable join : string -> string -> string.

(** The array [files] of the action. *)
Definition scan_files (w : Env) (options : Options.t) : list string :=
  if truthy (Options.file options)
  then [default ""%string (Options.file options)]
  else if truthy (Options.directory options)
  then let directory := default ""%string (Options.directory options) in
       getFiles join (scan_extensions options) directory (lookup w directory)
  else [].

(** [files.map(file => analyzeFile(file, options))] and the array
    [Promise.all] resolves to. *)
Definition orchestrate (w : Env) (options : Options.t) (files : list string)
  (order : list nat) : option (js_result (list Outcome)) :=
  Promise_all (map (fun file => snd (analyzeFile w file options)) files) order.

(** The action of [scan].  [log] holds the lines of the action itself and
    of [displayResults]; the spinner lines of an analysis are in the log of
    its [analyzeFile], and how they interleave follows the completion
    order.  A run that is not stopped by [process.exit(1)] ends with exit
    code 0. *)
Definition scan (w : Env) (options : Options.t) (order : list nat) : run :=
  if negb (truthy (Options.file options))
     && negb (truthy (Options.directory options))
  then Run [ConsoleError "Error: Please specify --file or --directory"]
           None (Exit 1)
  else
    let files := scan_files w options in
    let started :=
      [SpinnerStart "Starting scan..."; SpinnerFound (length files)] in
    match orchestrate w options files order with
    | None => Run started None Pending
    | Some (Throw message) =>
        Run (started ++ [SpinnerFail ("Scan failed: " +:+ message)])
            None (Exit 1)
    | Some (Ok results) =>
        Run (started ++ SpinnerSucceed "Scan complete!"
                     :: map ConsoleLog (displayResults results))
            (Some results) (Exit 0)
    end.

End Scan.

(** ** What discovery should find

    [discovered join extensions dir n path]: [path] is a regular file
    reached by recursive descent from the directory [dir] (holding [n]),
    its extension, lower-cased, is one of [extensions], and no directory
    on the way has a name that begins with a dot or is [node_modules]. *)

Definition excluded (item : string) : bool :=
  startsWith item "." || String.eqb item "node_modules".

Inductive discovered (join : string -> string -> string)
  (extensions : list string) : string -> node -> string -> Prop :=
| found_here dir items item :
    (item, RegularFile) ∈ items ->
    toLowerCase (extname item) ∈ extensions ->
    discovered join extensions dir (Directory items) (join dir item)
| found_below dir items item child path :
    (item, child) ∈ items ->
    isDirectory child = true ->
    excluded item = false ->
    discovered join extensions (join dir item) child path ->
    discovered join extensions dir (Directory items) path.

(** [statSync] succeeds on every entry of the tree. *)
Fixpoint stat_ok (n : node) : bool :=
  match n with
  | StatError => false
  | Directory items => forallb (fun e => stat_ok (snd e)) items
  | _ => true
  end.

(** ** Induction on trees *)

Section NodeInduction.

Variable P : node -> Prop.
Hypothesis P_file : P RegularFile.
Hypothesis P_special : P Special.
Hypothesis P_stat_error : P StatError.
Hypothesis P_locked : P LockedDirectory.
Hypothesis P_directory :
  forall items, Forall (fun e => P (snd e)) items -> P (Directory items).

Fixpoint node_ind (n : node) : P n :=
  match n with
  | RegularFile => P_file
  | Special => P_special
  | StatError => P_stat_error
  | LockedDirectory => P_locked
  | Directory items =>
      P_directory items
        ((fix all (l : list (string * node)) : Forall (fun e => P (snd e)) l :=
            match l with
            | [] => List.Forall_nil _
            | e :: r => List.Forall_cons _ e r (node_ind (snd e)) (all r)
            end) items)
  end.

End NodeInduction.


(** ** How an analysis can end

    [failure w filePath options cause]: the analysis of [filePath] fails,
    and [cause] is the message of the error that was thrown. *)

Inductive failure (w : Env) (filePath : string) (options : Options.t)
  : string -> Prop :=
| unreadable_file message :
    readFileSync w filePath = Throw message ->
    failure w filePath options message
| network_error code message :
    readFileSync w filePath = Ok code ->
    fetch w (scan_url w) (scan_request code options) = Throw message ->
    failure w filePath options message
| http_status code response :
    readFileSync w filePath = Ok code ->
    fetch w (scan_url w) (scan_request code options) = Ok response ->
    Response.ok response = false ->
    failure w filePath options ("API error: " +:+ Response.statusText response)
| malformed_body code response message :
    readFileSync w filePath = Ok code ->
    fetch w (scan_url w) (scan_request code options) = Ok response ->
    Response.ok response = true ->
    Response.json response = Throw message ->
    failure w filePath options message.

(** [success w filePath options result]: the file is read, the service
    answers with a 2xx status and the body parses to [result]. *)
Inductive success (w : Env) (filePath : string) (options : Options.t)
  : Result.t -> Prop :=
| analysed code response result :
    readFileSync w filePath = Ok code ->
    fetch w (scan_url w) (scan_request code options) = Ok response ->
    Response.ok response = true ->
    Response.json response = Ok result ->
    success w filePath options result.

(** The failed outcome carries the path and the cause: both can be read
    off the returned value, by [path_of] and [cause_of]. *)
Definition failed_outcome_carries (path_of cause_of : Outcome -> string) : Prop :=
  forall w filePath options cause outcome,
    failure w filePath options cause ->
    snd (analyzeFile w filePath options) = Ok outcome ->
    path_of outcome = filePath /\ cause_of outcome = cause.

(** The value [analyzeFile] returns for a file. *)
Definition outcome_of (w : Env) (options : Options.t) (filePath : string)
  : Outcome :=
  match snd (analyzeFile w filePath options) with
  | Ok outcome => outcome
  | Throw _ => None
  end.

(** Every promise settles: each index of the [n] promises occurs in the
    completion order. *)
Definition all_settle (n : nat) (order : list nat) : Prop :=
  forall i, i < n -> i ∈ order.

(** The invariant of the fan-in of [Promise.all]: the values stored so
    far are those of the promises, each at its own index. *)
Definition agrees {A} (vs : list A) (values : list (option A)) : Prop :=
  length values = length vs
  /\ forall i v, values !! i = Some (Some v) -> vs !! i = Some v.

(** ** What the aggregate should be *)

(** The vulnerabilities of a successful outcome ([[]] when the field is
    absent). *)
Definition vulnerabilities_of (r : Result.t) : list Vuln.t :=
  default [] (Result.vulnerabilities r).

(** The successful entries of an outcome sequence. *)
Definition successful (results : list Outcome) : list Result.t :=
  omap id results.

(** The sum of the lengths of the vulnerability lists of the successful
    entries. *)
Definition expected_total (results : list Outcome) : nat :=
  sum_list (map (fun r => length (vulnerabilities_of r)) (successful results)).

(** ** Sample worlds *)

Definition slash_join (dir item : string) : string := dir +:+ "/" +:+ item.

Definition sample_tree : node :=
  Directory
    [("a.ts", RegularFile); ("b.ts", RegularFile); ("c.txt", RegularFile);
     (".git", Directory [("hook.js", RegularFile)]);
     ("node_modules", Directory [("dep.js", RegularFile)]);
     ("locked", LockedDirectory);
     ("pipe", Special);
     ("src", Directory [("Main.TS", RegularFile); ("notes.md", RegularFile)])
    ]%string.

(** A directory whose first entry cannot be examined. *)
Definition dangling_tree : node :=
  Directory [("dangling", StatError); ("a.ts", RegularFile)]%string.

Definition high_at_3 : Vuln.t :=
  Vuln.Make 3 "high" "eval of user input" (Some "CWE-95"%string).

(** The service finds one issue in [root/b.ts] and none elsewhere; it
    answers 503 for [root/src/Main.TS] and 500 for [down.ts], is
    unreachable for [offline.ts], sends no JSON for [garbled.ts] and an
    empty object for [bare.ts]. *)
Definition sample_fetch (url : string) (body : Request.t)
  : js_result Response.t :=
  if String.eqb (Request.code body) "code of root/b.ts"
  then Ok (Response.Make 200 "OK" (Ok (Result.Make None (Some [high_at_3]))))
  else if String.eqb (Request.code body) "code of root/src/Main.TS"
  then Ok (Response.Make 503 "Service Unavailable" (Throw "unused"))
  else if String.eqb (Request.code body) "code of down.ts"
  then Ok (Response.Make 500 "Internal Server Error" (Throw "unused"))
  else if String.eqb (Request.code body) "code of offline.ts"
  then Throw "fetch failed"
  else if String.eqb (Request.code body) "code of garbled.ts"
  then Ok (Response.Make 200 "OK" (Throw "Unexpected token < in JSON"))
  else if String.eqb (Request.code body) "code of bare.ts"
  then Ok (Response.Make 200 "OK" (Ok (Result.Make None None)))
  else Ok (Response.Make 200 "OK" (Ok (Result.Make None (Some [])))).

Definition sample_readFileSync (path : string) : js_result string :=
  if String.eqb path "missing.ts"
  then Throw "ENOENT: no such file or directory, open 'missing.ts'"
  else if String.eqb path "other.ts"
  then Throw "ENOENT: no such file or directory, open 'other.ts'"
  else Ok ("code of " +:+ path).

Definition sample_lookup (path : string) : node :=
  if String.eqb path "root" then sample_tree
  else if String.eqb path "dangling" then dangling_tree
  else StatError.

Definition sample_world : Env :=
  {| CODELENS_API_URL := None;
     readFileSync := sample_readFileSync;
     lookup := sample_lookup;
     fetch := sample_fetch |}.

(** The same world over another file system. *)
Definition with_lookup (w : Env) (l : string -> node) : Env :=
  {| CODELENS_API_URL := CODELENS_API_URL w;
     readFileSync := readFileSync w;
     lookup := l;
     fetch := fetch w |}.

Definition scan_file (path : string) : Options.t :=
  Options.Make (Some path) None None None.

Definition scan_directory (path : string) : Options.t :=
  Options.Make None (Some path) None None.

(** Extensions given with uppercase letters, and a tree to match them
    against. *)
Definition mixed_case_options : Options.t :=
  Options.Make None (Some "root") None (Some "TS, .Js ,py")%string.

Definition mixed_case_tree : node :=
  Directory [("Main.TS", RegularFile); ("a.ts", RegularFile);
             ("x.Js", RegularFile); ("b.py", RegularFile)]%string.

(** The outcomes of scanning [root] in the sample world. *)
Definition sample_outcomes : list Outcome :=
  [Some (Result.Make None (Some []));
   Some (Result.Make None (Some [high_at_3]));
   None].

(** ** Reading the report and the logs *)

(** What [displayResults] prints for one outcome: nothing for a failed
    one or one without vulnerabilities, else a heading and the lines of
    each vulnerability. *)
Definition block (o : Outcome) : list report_line :=
  match o with
  | None => []
  | Some r =>
      match vulnerabilities_of r with
      | [] => []
      | vulns => FileHeading (Result.file r) :: flat_map show_vuln vulns
      end
  end.


Definition is_post (e : event) : bool :=
  match e with
  | Post _ _ => true
  | _ => false
  end.

(** An outcome that counts for nothing in the total. *)
Definition nothing_found (o : Outcome) : Prop :=
  match o with
  | None => True
  | Some r => vulnerabilities_of r = []
  end.

(** ** The commands [explain], [languages] and [doctor] *)

Module Reply.
(** A response whose body parses to a [B]. *)
Record t (B : Type) := Make {
  status : Z;
  statusText : string;
  json : js_result B
}.
Arguments Make {B} status statusText json.
Arguments status {B} r : rename.
Arguments statusText {B} r : rename.
Arguments json {B} r : rename.
Definition ok {B} (r : t B) : bool := ((200 <=? status r) && (status r <=? 299))%Z.
End Reply.

Module Explained.
Record t := Make { explanation : option string }.
End Explained.

Module Lang.
Record t := Make { name : string; extensions : list string }.
End Lang.

Module Languages.
Record t := Make { languages : option (list Lang.t) }.
End Languages.

Module Health.
Record t := Make {
  status : option string;
  version : option string;
  aiConfigured : option bool
}.
End Health.

Module ExplainOptions.
Record t := Make {
  file : option string;
  code : option string;
  language : option string
}.
End ExplainOptions.

(** The three other endpoints of the service, each a function of the
    request. *)
Record Remote := {
  fetch_explain : string -> Request.t -> js_result (Reply.t Explained.t);
  fetch_languages : string -> js_result (Reply.t Languages.t);
  fetch_health : string -> js_result (Reply.t Health.t)
}.

(** What these commands write and send. *)
Inductive output :=
| StdErr (text : string)
| SpinStart (text : string)
| SpinSucceed (text : string)
| SpinFail (text : string)
| HttpPost (url : string) (body : Request.t)
| HttpGet (url : string)
| ExplanationTitle
| ExplanationText (text : option string)
| LanguagesTitle
| LanguageLine (name : string) (extensions : string)
| HealthTitle
| HealthStatus (ok : bool)
| HealthVersion (version : option string)
| HealthConfigured (yes : bool)
| HealthUrl (url : string)
| HealthHint
| Unreachable (url : string)
| StartAdvice
| StartCommand.

(** An action: what it writes, and the exit code it ends with or the
    error it throws. *)
Definition Act (A : Type) : Type := (list output * js_result A)%type.

Definition act_ret {A} (a : A) : Act A := ([], Ok a).

Definition act_throw {A} (message : string) : Act A := ([], Throw message).

Definition say (o : output) : Act unit := ([o], Ok tt).

Definition await {A} (r : js_result A) : Act A := ([], r).

Definition act_bind {A B} (m : Act A) (k : A -> Act B) : Act B :=
  match m with
  | (l, Ok a) => let '(l', r) := k a in (l ++ l', r)
  | (l, Throw e) => (l, Throw e)
  end.

Definition act_catch {A} (body : Act A) (handler : string -> Act A) : Act A :=
  match body with
  | (l, Ok a) => (l, Ok a)
  | (l, Throw e) => let '(l', r) := handler e in (l ++ l', r)
  end.

Declare Scope act_scope.
Delimit Scope act_scope with act.
Notation "'let*' x ':=' m 'in' k" := (act_bind m (fun x => k))
  (at level 10, x name, m at level 100, k at level 200) : act_scope.
Notation "m '>>' k" := (act_bind m (fun _ => k))
  (at level 100, k at level 200, right associativity) : act_scope.

(** [for (const x of l) body(x)]. *)
Fixpoint for_each {A} (l : list A) (body : A -> Act unit) : Act unit :=
  match l with
  | [] => act_ret tt
  | x :: rest => (body x >> for_each rest body)%act
  end.

(** The exit code of the process: that of [process.exit], 0 at the normal
    end, 1 for an error nobody catches. *)
Definition exit_code (m : Act Z) : Z :=
  match snd m with
  | Ok c => c
  | Throw _ => 1%Z
  end.

(** [Array.prototype.join]. *)
Fixpoint join_with (sep : string) (l : list string) : string :=
  match l with
  | [] => ""
  | [x] => x
  | x :: rest => x +:+ sep +:+ join_with sep rest
  end.

(** [options.file ? readFileSync(options.file, 'utf-8') : options.code]. *)
Definition explain_source (w : Env) (options : ExplainOptions.t)
  : js_result string :=
  if truthy (ExplainOptions.file options)
  then readFileSync w (default ""%string (ExplainOptions.file options))
  else Ok (default ""%string (ExplainOptions.code options)).

Definition explain_url (w : Env) : string := API_URL w +:+ "/api/v1/explain".

Definition explain_request (code : string) (options : ExplainOptions.t)
  : Request.t :=
  Request.Make code (or_undefined (ExplainOptions.language options)).

(** The action of [explain]. *)
Definition explain (w : Env) (r : Remote) (options : ExplainOptions.t) : Act Z :=
  (if negb (truthy (ExplainOptions.file options))
      && negb (truthy (ExplainOptions.code options))
   then say (StdErr "Error: Please specify --file or --code") >> act_ret 1%Z
   else
     say (SpinStart "Analyzing code...") >>
     act_catch
       (let* code := await (explain_source w options) in
        let body := explain_request code options in
        say (HttpPost (explain_url w) body) >>
        let* response := await (fetch_explain r (explain_url w) body) in
        (if negb (Reply.ok response)
         then act_throw ("API error: " +:+ Reply.statusText response)
         else act_ret tt) >>
        let* result := await (Reply.json response) in
        say (SpinSucceed "Analysis complete!") >>
        say ExplanationTitle >>
        say (ExplanationText (Explained.explanation result)) >>
        act_ret 0%Z)
       (fun message =>
          say (SpinFail ("Failed: " +:+ message)) >> act_ret 1%Z))%act.

Definition languages_url (w : Env) : string := API_URL w +:+ "/api/v1/languages".

(** The action of [languages].  The status of the response is not looked
    at; iterating over an absent [languages] field throws. *)
Definition languages (w : Env) (r : Remote) : Act Z :=
  (act_catch
     (say (HttpGet (languages_url w)) >>
      let* response := await (fetch_languages r (languages_url w)) in
      let* result := await (Reply.json response) in
      say LanguagesTitle >>
      let* langs :=
        match Languages.languages result with
        | Some langs => act_ret langs
        | None => act_throw "result.languages is not iterable"
        end in
      for_each langs
        (fun lang =>
           say (LanguageLine (Lang.name lang)
                             (join_with ", " (Lang.extensions lang)))) >>
      act_ret 0%Z)
     (fun message =>
        say (StdErr ("Failed to fetch languages: " +:+ message)) >>
        act_ret 1%Z))%act.





(** A sample service for these commands. *)
Definition sample_remote : Remote :=
  {| fetch_explain := fun url body =>
       if String.eqb (Request.code body) "code of down.ts"
       then Ok (Reply.Make 500 "Internal Server Error" (Throw "unused"))
       else Ok (Reply.Make 200 "OK"
                  (Ok (Explained.Make (Some "It adds two numbers."%string))));
     fetch_languages := fun url =>
       Ok (Reply.Make 200 "OK"
             (Ok (Languages.Make
                    (Some [Lang.Make "TypeScript" [".ts"; ".tsx"];
                           Lang.Make "Go" [".go"]]%string))));
     fetch_health := fun url =>
       Ok (Reply.Make 503 "Service Unavailable"
             (Ok (Health.Make (Some "degraded"%string) None None))) |}.


(** ** The model on concrete inputs *)

Example extname_ts : extname "a.ts" = ".ts"%string.
Proof. reflexivity. Qed.
Example extname_hidden : extname ".bashrc" = ""%string.
Proof. reflexivity. Qed.
Example extname_two : extname "a.b.C" = ".C"%string.
Proof. reflexivity. Qed.
Example extname_dotdot : extname ".." = ""%string.
Proof. reflexivity. Qed.
Example extname_dots : extname "..." = "."%string.
Proof. reflexivity. Qed.
Example extname_trailing : extname "a." = "."%string.
Proof. reflexivity. Qed.
Example extname_dir : extname "x.d/y" = ""%string.
Proof. reflexivity. Qed.
Example extname_slash : extname "x/y.js/" = ".js"%string.
Proof. reflexivity. Qed.
Example trim_ex : trim "  .ts " = ".ts"%string.
Proof. reflexivity. Qed.
Example split_ex : split "," "a,,b" = ["a"; ""; "b"]%string.
Proof. reflexivity. Qed.
Example dotted_ex : map dotted (split "," "ts, .JS ,py,") = [".ts"; ".JS"; ".py"; "."]%string.
Proof. reflexivity. Qed.
Example getFiles_sample :
  getFiles slash_join default_extensions "root" sample_tree
  = ["root/a.ts"; "root/b.ts"; "root/src/Main.TS"]%string.
Proof. reflexivity. Qed.
Example Promise_all_positional :
  Promise_all [Ok 1; Ok 2; Ok 3] [2; 0; 1] = Some (Ok [1; 2; 3]).
Proof. reflexivity. Qed.
Example Promise_all_fail_fast :
  Promise_all [Ok 1; Throw "x"; Ok 3] [2; 1; 0] = Some (Throw "x").
Proof. reflexivity. Qed.
Example Promise_all_pending :
  Promise_all [Ok 1; Ok 2; Ok 3] [2; 0] = None.
Proof. reflexivity. Qed.
Example scan_sample :
  scan slash_join sample_world (scan_directory "root") [2; 0; 1]
  = Run [SpinnerStart "Starting scan..."; SpinnerFound 3;
         SpinnerSucceed "Scan complete!";
         ConsoleLog Rule; ConsoleLog Title; ConsoleLog Rule;
         ConsoleLog (FileHeading None);
         ConsoleLog (Finding yellow "HIGH" 3 "eval of user input");
         ConsoleLog (CweLine "CWE-95");
         ConsoleLog (Total 1); ConsoleLog FixIssues]
        (Some sample_outcomes) (Exit 0).
Proof. reflexivity. Qed.
Example scan_no_directory :
  scan slash_join sample_world (scan_directory "nowhere") []
  = Run [SpinnerStart "Starting scan..."; SpinnerFound 0;
         SpinnerSucceed "Scan complete!";
         ConsoleLog Rule; ConsoleLog Title; ConsoleLog Rule;
         ConsoleLog (Total 0); ConsoleLog NoIssues]
        (Some []) (Exit 0).
Proof. reflexivity. Qed.

(** ** Facts about the built-ins *)

Lemma includes_elem_of (l : list string) (x : string) :
  includes l x = true <-> x ∈ l.
Proof.
  unfold includes. rewrite existsb_exists. split.
  - intros (y & Hy & Heq). apply String.eqb_eq in Heq. subst y.
    by apply list_elem_of_In.
  - intros Hx. exists x. split; [by apply list_elem_of_In|apply String.eqb_refl].
Qed.

Lemma includes_not_elem_of (l : list string) (x : string) :
  includes l x = false <-> x ∉ l.
Proof.
  rewrite <- includes_elem_of. destruct (includes l x); split; congruence.
Qed.

(** Propositional case splitting, closing each case by rewriting. *)
Ltac by_cases := intuition (subst; try discriminate; try congruence; auto).

(** ** Facts about [getFiles] *)

Section DiscoveryFacts.

Variable join : string -> string -> string.
Variable extensions : list string.

Lemma getFiles_not_listed dir n :
  (forall items, n <> Directory items) -> getFiles join extensions dir n = [].
Proof. destruct n; intros H; try reflexivity. by destruct (H items). Qed.

Lemma getFiles_nil dir : getFiles join extensions dir (Directory []) = [].
Proof. reflexivity. Qed.

(** A failing [statSync] ends the loop: the entries after it are not seen. *)
Lemma getFiles_stat_error dir item rest :
  getFiles join extensions dir (Directory ((item, StatError) :: rest)) = [].
Proof. reflexivity. Qed.

Lemma getFiles_subdir dir item child rest :
  isDirectory child = true -> excluded item = false ->
  getFiles join extensions dir (Directory ((item, child) :: rest))
  = getFiles join extensions (join dir item) child
    ++ getFiles join extensions dir (Directory rest).
Proof.
  unfold excluded. intros Hd [H1 H2]%orb_false_elim.
  destruct child; try discriminate Hd; cbn; by rewrite H1, H2.
Qed.

Lemma getFiles_excluded_dir dir item child rest :
  isDirectory child = true -> excluded item = true ->
  getFiles join extensions dir (Directory ((item, child) :: rest))
  = getFiles join extensions dir (Directory rest).
Proof.
  unfold excluded. intros Hd Hx.
  destruct child; try discriminate Hd; cbn;
    destruct (startsWith item "."), (String.eqb item "node_modules");
    try discriminate Hx; reflexivity.
Qed.

Lemma getFiles_file dir item rest :
  getFiles join extensions dir (Directory ((item, RegularFile) :: rest))
  = if includes extensions (toLowerCase (extname item))
    then join dir item :: getFiles join extensions dir (Directory rest)
    else getFiles join extensions dir (Directory rest).
Proof. reflexivity. Qed.

Lemma getFiles_special dir item rest :
  getFiles join extensions dir (Directory ((item, Special) :: rest))
  = getFiles join extensions dir (Directory rest).
Proof. reflexivity. Qed.

(** The entries before a failing [statSync] are all that is returned. *)
Lemma getFiles_until_stat_error dir before item after :
  getFiles join extensions dir (Directory (before ++ (item, StatError) :: after))
  = getFiles join extensions dir (Directory (before ++ [(item, StatError)])).
Proof.
  induction before as [|[i c] before IH]; [reflexivity|].
  cbn [app]. destruct c.
  - rewrite !getFiles_file. by rewrite IH.
  - rewrite !getFiles_special. apply IH.
  - by rewrite !getFiles_stat_error.
  - destruct (excluded i) eqn:Hx.
    + rewrite !getFiles_excluded_dir by done. apply IH.
    + rewrite !getFiles_subdir by done. by rewrite IH.
  - destruct (excluded i) eqn:Hx.
    + rewrite !getFiles_excluded_dir by done. apply IH.
    + rewrite !getFiles_subdir by done. by rewrite IH.
Qed.

(** An unreadable or excluded directory is skipped and its siblings are
    still visited. *)
Lemma getFiles_skip dir before item child after :
  isDirectory child = true ->
  child = LockedDirectory \/ excluded item = true ->
  getFiles join extensions dir (Directory (before ++ (item, child) :: after))
  = getFiles join extensions dir (Directory (before ++ after)).
Proof.
  intros Hd Hskip.
  induction before as [|[i c] before IH]; cbn [app].
  - destruct (excluded item) eqn:Hx.
    + by apply getFiles_excluded_dir.
    + destruct Hskip as [->|]; [|done].
      by rewrite getFiles_subdir.
  - destruct c.
    + rewrite !getFiles_file. by rewrite IH.
    + rewrite !getFiles_special. apply IH.
    + by rewrite !getFiles_stat_error.
    + destruct (excluded i) eqn:Hx.
      * rewrite !getFiles_excluded_dir by done. apply IH.
      * rewrite !getFiles_subdir by done. by rewrite IH.
    + destruct (excluded i) eqn:Hx.
      * rewrite !getFiles_excluded_dir by done. apply IH.
      * rewrite !getFiles_subdir by done. by rewrite IH.
Qed.

Lemma discovered_cons dir item child rest path :
  discovered join extensions dir (Directory ((item, child) :: rest)) path
  <-> (child = RegularFile /\ toLowerCase (extname item) ∈ extensions
       /\ path = join dir item)
      \/ (isDirectory child = true /\ excluded item = false
          /\ discovered join extensions (join dir item) child path)
      \/ discovered join extensions dir (Directory rest) path.
Proof.
  split.
  - intros H. inversion H as [d its i Hin Hext|d its i c p Hin Hd Hx Hsub]; subst.
    + apply elem_of_cons in Hin as [Heq|Hin].
      * inversion Heq; subst. left. done.
      * right. right. by apply found_here.
    + apply elem_of_cons in Hin as [Heq|Hin].
      * inversion Heq; subst. right. left. done.
      * right. right. by eapply found_below.
  - intros [(-> & Hext & ->)|[(Hd & Hx & Hsub)|H]].
    + apply found_here; [apply list_elem_of_here|done].
    + eapply found_below; [apply list_elem_of_here|done..].
    + inversion H as [d its i Hin Hext|d its i c p Hin Hd Hx Hsub]; subst.
      * apply found_here; [by apply list_elem_of_further|done].
      * eapply found_below; [by apply list_elem_of_further|done..].
Qed.

Lemma discovered_nil dir path :
  ~ discovered join extensions dir (Directory []) path.
Proof.
  intros H. inversion H as [d its i Hin Hext|d its i c p Hin Hd Hx Hsub];
    subst; by apply not_elem_of_nil in Hin.
Qed.

Lemma getFiles_discovered n :
  forall dir, stat_ok n = true ->
  forall path, path ∈ getFiles join extensions dir n
               <-> discovered join extensions dir n path.
Proof.
  induction n as [| | | |items IH] using node_ind; intros dir Hok path;
    try (cbn; split; [by intros ?%not_elem_of_nil|by inversion 1]).
  revert Hok. induction items as [|[item child] rest IHrest]; intros Hok.
  - rewrite getFiles_nil. split; [by intros ?%not_elem_of_nil|].
    by intros ?%discovered_nil.
  - apply Forall_cons in IH as [IHchild IH]. cbn [snd] in IHchild.
    cbn [stat_ok forallb snd] in Hok. apply andb_true_iff in Hok as [Hc Hr].
    specialize (IHrest IH Hr).
    rewrite discovered_cons, <- IHrest.
    destruct child.
    + rewrite getFiles_file.
      destruct (includes extensions (toLowerCase (extname item))) eqn:Hin.
      * apply includes_elem_of in Hin. rewrite elem_of_cons. cbn. clear IH IHchild IHrest; by_cases.
      * apply includes_not_elem_of in Hin. cbn. clear IH IHchild IHrest; by_cases.
    + rewrite getFiles_special. cbn. clear IH IHchild IHrest; by_cases.
    + discriminate Hc.
    + destruct (excluded item) eqn:Hx.
      * rewrite getFiles_excluded_dir by done. clear IH IHchild IHrest; by_cases.
      * rewrite getFiles_subdir by done. rewrite elem_of_app.
        rewrite (IHchild _ Hc). clear IH IHchild IHrest; by_cases.
    + destruct (excluded item) eqn:Hx.
      * rewrite getFiles_excluded_dir by done. clear IH IHchild IHrest; by_cases.
      * rewrite getFiles_subdir by done. rewrite elem_of_app.
        rewrite (IHchild _ Hc). clear IH IHchild IHrest; by_cases.
Qed.

End DiscoveryFacts.

(** C4. On a tree in which [statSync] fails nowhere, [getFiles] returns
    exactly the regular files reached by recursive descent whose
    extension, lower-cased on the file side, is among [extensions]; and a
    directory whose name begins with a dot or is [node_modules] is never
    entered: the result is the same with that entry removed. *)
Theorem getFiles_exact (join : string -> string -> string)
  (extensions : list string) (dir : string) (n : node) :
  (stat_ok n = true ->
   forall path, path ∈ getFiles join extensions dir n
                <-> discovered join extensions dir n path)
  /\ (forall before item child after,
        isDirectory child = true ->
        excluded item = true ->
        getFiles join extensions dir (Directory (before ++ (item, child) :: after))
        = getFiles join extensions dir (Directory (before ++ after))).
Proof.
  split.
  - intros Hok path. by apply getFiles_discovered.
  - intros before item child after Hd Hx. apply getFiles_skip; auto.
Qed.

Lemma getFiles_exact_witness :
  ("root/src/Main.TS"%string
     ∈ getFiles slash_join default_extensions "root" sample_tree
   <-> discovered slash_join default_extensions "root" sample_tree
                  "root/src/Main.TS")
  /\ getFiles slash_join default_extensions "root"
       (Directory ([("a.ts"%string, RegularFile)]
                   ++ (".git"%string, Directory [("hook.js"%string, RegularFile)])
                   :: [("b.ts"%string, RegularFile)]))
     = getFiles slash_join default_extensions "root"
         (Directory ([("a.ts"%string, RegularFile)]
                     ++ [("b.ts"%string, RegularFile)])).
Proof.
  split.
  - apply (proj1 (getFiles_exact slash_join default_extensions "root" sample_tree)).
    reflexivity.
  - apply (proj2 (getFiles_exact slash_join default_extensions "root" sample_tree));
      reflexivity.
Defined.

(** C6, at the failing input: the directory [dangling] lists a dangling
    link and then [a.ts].  [a.ts] is a matching file that discovery should
    return, but the failure of [statSync] on the link ends the loop and
    nothing is returned.  In general the entries listed after the one on
    which [statSync] fails have no effect on the result. *)
Theorem getFiles_stat_error_hides_sibling (join : string -> string -> string) :
  discovered join [".ts"%string] "dangling" dangling_tree (join "dangling" "a.ts")
  /\ getFiles join [".ts"%string] "dangling" dangling_tree = []
  /\ (forall extensions dir before item after,
        getFiles join extensions dir
          (Directory (before ++ (item, StatError) :: after))
        = getFiles join extensions dir
            (Directory (before ++ [(item, StatError)]))).
Proof.
  split; [|split; [reflexivity|]].
  - apply found_here.
    + apply list_elem_of_further, list_elem_of_here.
    + apply list_elem_of_here.
  - intros extensions dir before item after.
    apply getFiles_until_stat_error.
Qed.

(** ** Case of letters *)

Lemma lower_char_not_upper (c : ascii) : is_upper (lower_char c) = false.
Proof. destruct c as [[] [] [] [] [] [] [] []]; reflexivity. Qed.

Lemma white_not_upper (c : ascii) : is_white c = true -> is_upper c = false.
Proof. destruct c as [[] [] [] [] [] [] [] []]; (reflexivity || discriminate). Qed.

Lemma toLowerCase_no_upper (s : string) : has_upper (toLowerCase s) = false.
Proof.
  induction s as [|c r IH]; [reflexivity|].
  cbn. by rewrite lower_char_not_upper, IH.
Qed.

Lemma trimStart_has_upper (s : string) : has_upper (trimStart s) = has_upper s.
Proof.
  induction s as [|c r IH]; [reflexivity|].
  cbn. destruct (is_white c) eqn:Hw; [|reflexivity].
  by rewrite IH, (white_not_upper c Hw).
Qed.

Lemma trimEnd_has_upper (s : string) : has_upper (trimEnd s) = has_upper s.
Proof.
  induction s as [|c r IH]; [reflexivity|].
  cbn. destruct (trimEnd r) as [|a r'] eqn:Hr.
  - cbn in IH. rewrite <- IH.
    destruct (is_white c) eqn:Hw; cbn.
    + by rewrite (white_not_upper c Hw).
    + reflexivity.
  - cbn [has_upper] in *. by rewrite IH.
Qed.

Lemma trim_has_upper (s : string) : has_upper (trim s) = has_upper s.
Proof. unfold trim. by rewrite trimEnd_has_upper, trimStart_has_upper. Qed.

Lemma dotted_has_upper (e : string) : has_upper (dotted e) = has_upper e.
Proof.
  unfold dotted. destruct (startsWith (trim e) "."); [apply trim_has_upper|].
  cbn. apply trim_has_upper.
Qed.

Lemma dotted_startsWith (e : string) : startsWith (dotted e) "." = true.
Proof.
  unfold dotted. destruct (startsWith (trim e) ".") eqn:Hp; [done|].
  unfold startsWith. cbn. by destruct (trim e).
Qed.

(** A string with an uppercase letter differs from every lower-cased one. *)
Lemma upper_never_lowercased (e x : string) :
  has_upper e = true -> String.eqb (toLowerCase x) e = false.
Proof.
  intros He. destruct (String.eqb (toLowerCase x) e) eqn:Heq; [|reflexivity].
  apply String.eqb_eq in Heq. subst e.
  by rewrite toLowerCase_no_upper in He.
Qed.

Lemma includes_drop_upper (l : list string) (x : string) :
  includes (filter (fun e => has_upper e = false) l) (toLowerCase x)
  = includes l (toLowerCase x).
Proof.
  unfold includes. induction l as [|e l IH]; [reflexivity|].
  rewrite filter_cons. destruct (decide (has_upper e = false)) as [Hl|Hu].
  - cbn. by rewrite IH.
  - cbn. rewrite IH. apply not_false_iff_true in Hu.
    by rewrite (upper_never_lowercased e x Hu).
Qed.

(** [getFiles] only asks its extension list about lower-cased names. *)
Lemma getFiles_same_matches (join : string -> string -> string)
  (exts1 exts2 : list string) :
  (forall x, includes exts1 (toLowerCase x) = includes exts2 (toLowerCase x)) ->
  forall n dir, getFiles join exts1 dir n = getFiles join exts2 dir n.
Proof.
  intros Hsame.
  induction n as [| | | |items IH] using node_ind; intros dir; try reflexivity.
  induction items as [|[item child] rest IHrest]; [reflexivity|].
  apply Forall_cons in IH as [IHchild IH]. cbn [snd] in IHchild.
  specialize (IHrest IH).
  destruct child.
  - rewrite !getFiles_file, Hsame, IHrest. reflexivity.
  - by rewrite !getFiles_special.
  - by rewrite !getFiles_stat_error.
  - destruct (excluded item) eqn:Hx.
    + by rewrite !getFiles_excluded_dir.
    + rewrite !getFiles_subdir by done. by rewrite IHrest.
  - destruct (excluded item) eqn:Hx.
    + by rewrite !getFiles_excluded_dir.
    + rewrite !getFiles_subdir by done. by rewrite IHrest, IHchild.
Qed.

(** C10. A supplied extension list is split at the commas and each entry
    is trimmed and given a leading dot when it has none, but its letters
    keep their case; as the extension of a file is lower-cased before the
    comparison, an entry with an uppercase letter matches no file, and
    discovery finds what it finds without such entries. *)
Theorem uppercase_extension_matches_nothing (join : string -> string -> string)
  (options : Options.t) (raw : string) (dir : string) (n : node) :
  Options.extensions options = Some raw ->
  raw <> ""%string ->
  scan_extensions options = map dotted (split "," raw)
  /\ (forall e, startsWith (dotted e) "." = true
                /\ has_upper (dotted e) = has_upper e)
  /\ (forall e item, has_upper e = true ->
        includes [dotted e] (toLowerCase (extname item)) = false)
  /\ getFiles join (scan_extensions options) dir n
     = getFiles join
         (filter (fun e => has_upper e = false) (scan_extensions options)) dir n.
Proof.
  intros Hraw Hne. repeat split.
  - unfold scan_extensions, truthy. rewrite Hraw. cbn.
    destruct (String.eqb raw "") eqn:Heq; [|reflexivity].
    by apply String.eqb_eq in Heq.
  - apply dotted_startsWith.
  - apply dotted_has_upper.
  - intros e item He. unfold includes. cbn.
    rewrite upper_never_lowercased; [reflexivity|].
    by rewrite dotted_has_upper.
  - apply getFiles_same_matches. intros x. symmetry. apply includes_drop_upper.
Qed.

Lemma uppercase_extension_matches_nothing_witness :
  scan_extensions mixed_case_options = [".TS"; ".Js"; ".py"]%string
  /\ has_upper (dotted " Js ") = true
  /\ includes [dotted "TS"] (toLowerCase (extname "a.ts")) = false
  /\ getFiles slash_join (scan_extensions mixed_case_options) "root" mixed_case_tree
     = ["root/b.py"%string].
Proof.
  destruct (uppercase_extension_matches_nothing slash_join mixed_case_options
              "TS, .Js ,py" "root" mixed_case_tree
              eq_refl ltac:(discriminate))
    as (Hparse & Hcase & Hnone & Hfiles).
  split; [exact Hparse|].
  split; [exact (proj2 (Hcase " Js "%string))|].
  split; [exact (Hnone "TS"%string "a.ts"%string eq_refl)|].
  exact Hfiles.
Defined.

(** ** Facts about [displayResults] *)

Lemma expected_total_cons (o : Outcome) (rest : list Outcome) :
  expected_total (o :: rest)
  = match o with
    | Some r => length (vulnerabilities_of r)
    | None => 0
    end + expected_total rest.
Proof. by destruct o. Qed.

Lemma expected_total_app (l1 l2 : list Outcome) :
  expected_total (l1 ++ l2) = expected_total l1 + expected_total l2.
Proof.
  induction l1 as [|o l1 IH]; [reflexivity|].
  cbn [app]. rewrite !expected_total_cons, IH. lia.
Qed.

Lemma display_step_total (st : nat * list report_line) (o : Outcome) :
  fst (display_step st o)
  = fst st + match o with
             | Some r => length (vulnerabilities_of r)
             | None => 0
             end.
Proof.
  destruct o as [r|]; [|cbn; lia].
  unfold display_step, vulnerabilities_of.
  by destruct (0 <? length (default [] (Result.vulnerabilities r))).
Qed.

Lemma display_loop_total (results : list Outcome) (st : nat * list report_line) :
  fst (fold_left display_step results st) = fst st + expected_total results.
Proof.
  revert st. induction results as [|o rest IH]; intros st.
  - cbn. unfold expected_total. cbn. lia.
  - cbn [fold_left]. rewrite IH, display_step_total, expected_total_cons. lia.
Qed.

Lemma totalVulns_expected (results : list Outcome) :
  totalVulns results = expected_total results.
Proof. unfold totalVulns, display_loop. by rewrite display_loop_total. Qed.

Lemma displayResults_total (results : list Outcome) :
  Total (expected_total results) ∈ displayResults results.
Proof.
  unfold displayResults. rewrite totalVulns_expected.
  apply elem_of_app. right. apply list_elem_of_here.
Qed.

Section ScanFacts.

Variable join : string -> string -> string.

(** A run that has results ended with exit code 0 and printed the report
    of these results. *)
Lemma scan_results w options order rs :
  results (scan join w options order) = Some rs ->
  orchestrate w options (scan_files join w options) order = Some (Ok rs)
  /\ end_of_run (scan join w options order) = Exit 0
  /\ log (scan join w options order)
     = [SpinnerStart "Starting scan...";
        SpinnerFound (length (scan_files join w options));
        SpinnerSucceed "Scan complete!"]
       ++ map ConsoleLog (displayResults rs).
Proof.
  unfold scan.
  destruct (negb (truthy (Options.file options))
            && negb (truthy (Options.directory options))); [discriminate|].
  destruct (orchestrate w options (scan_files join w options) order)
    as [[rs'|message]|]; cbn; try discriminate.
  intros [= ->]. done.
Qed.

End ScanFacts.

(** C1. The total that [displayResults] counts and prints is the sum of
    the lengths of the vulnerability lists of the successful outcomes; a
    failed outcome ([null]) adds 0 to it; and the total printed by a scan
    is that sum over the outcomes of the scan. *)
Theorem total_is_sum_over_successes (outcomes : list Outcome) :
  totalVulns outcomes = expected_total outcomes
  /\ Total (expected_total outcomes) ∈ displayResults outcomes
  /\ (forall before after,
        outcomes = before ++ None :: after ->
        totalVulns outcomes = totalVulns (before ++ after))
  /\ (forall join w options order,
        results (scan join w options order) = Some outcomes ->
        ConsoleLog (Total (expected_total outcomes))
          ∈ log (scan join w options order)).
Proof.
  split; [apply totalVulns_expected|].
  split; [apply displayResults_total|].
  split.
  - intros before after ->. rewrite !totalVulns_expected, !expected_total_app.
    by rewrite expected_total_cons.
  - intros join w options order Hrun.
    apply scan_results in Hrun as (_ & _ & ->).
    apply elem_of_app. right.
    apply (list_elem_of_fmap_2 ConsoleLog), displayResults_total.
Qed.

Lemma total_is_sum_over_successes_witness :
  totalVulns sample_outcomes = 1
  /\ totalVulns sample_outcomes
     = totalVulns [Some (Result.Make None (Some []));
                   Some (Result.Make None (Some [high_at_3]))]
  /\ ConsoleLog (Total 1)
       ∈ log (scan slash_join sample_world (scan_directory "root") [2; 0; 1]).
Proof.
  destruct (total_is_sum_over_successes sample_outcomes)
    as (Hsum & _ & Hfailed & Hscan).
  split; [exact Hsum|].
  split.
  - exact (Hfailed [Some (Result.Make None (Some []));
                    Some (Result.Make None (Some [high_at_3]))] [] eq_refl).
  - exact (Hscan slash_join sample_world (scan_directory "root") [2; 0; 1] eq_refl).
Defined.

(** ** Facts about [analyzeFile] *)

Ltac run_analyzeFile :=
  unfold analyzeFile, try_catch, bind, lift, emit, ret, throw; cbn.

Lemma analyzeFile_success w filePath options result :
  success w filePath options result ->
  analyzeFile w filePath options
  = ([SpinnerStart ("Analyzing " +:+ filePath +:+ "...");
      Post (scan_url w) (scan_request
                           (match readFileSync w filePath with
                            | Ok code => code
                            | Throw _ => ""%string
                            end) options);
      SpinnerSucceed ("Analyzed " +:+ filePath)],
     Ok (Some result)).
Proof.
  intros [code response r Hread Hfetch Hok Hjson].
  run_analyzeFile. rewrite Hread, Hfetch, Hok. cbn. by rewrite Hjson.
Qed.

Lemma analyzeFile_failure w filePath options cause :
  failure w filePath options cause ->
  snd (analyzeFile w filePath options) = Ok None
  /\ last (fst (analyzeFile w filePath options))
     = Some (SpinnerFail ("Failed to analyze " +:+ filePath +:+ ": " +:+ cause)).
Proof.
  intros [message Hread
         |code message Hread Hfetch
         |code response Hread Hfetch Hok
         |code response message Hread Hfetch Hok Hjson];
    run_analyzeFile; rewrite Hread; try rewrite Hfetch; try rewrite Hok;
    cbn; try rewrite Hjson; done.
Qed.

(** Every analysis ends in one of the two ways. *)
Lemma analyzeFile_cases w filePath options :
  (exists result, success w filePath options result)
  \/ (exists cause, failure w filePath options cause).
Proof.
  destruct (readFileSync w filePath) as [code|message] eqn:Hread.
  2: { right. exists message. by apply unreadable_file. }
  destruct (fetch w (scan_url w) (scan_request code options))
    as [response|message] eqn:Hfetch.
  2: { right. exists message. by eapply network_error. }
  destruct (Response.ok response) eqn:Hok.
  2: { right. eexists. by eapply http_status. }
  destruct (Response.json response) as [result|message] eqn:Hjson.
  - left. exists result. by eapply analysed.
  - right. exists message. by eapply malformed_body.
Qed.

(** [analyzeFile] never throws: its promise is always fulfilled. *)
Lemma analyzeFile_returns w filePath options :
  exists outcome, snd (analyzeFile w filePath options) = Ok outcome.
Proof.
  destruct (analyzeFile_cases w filePath options) as [[r Hs]|[c Hf]].
  - exists (Some r). by rewrite (analyzeFile_success _ _ _ _ Hs).
  - exists None. by apply (analyzeFile_failure _ _ _ _ Hf).
Qed.

Lemma analyzeFile_outcome_of w filePath options :
  snd (analyzeFile w filePath options) = Ok (outcome_of w options filePath).
Proof.
  unfold outcome_of.
  by destruct (analyzeFile_returns w filePath options) as [o ->].
Qed.

(** C3, as stated, fails: two analyses that fail on different files and
    for different causes return the same value, [null], so neither the
    path nor the cause can be read off what is returned. *)
Lemma failed_outcome_carries_nothing :
  snd (analyzeFile sample_world "missing.ts" (scan_file "missing.ts")) = Ok None
  /\ snd (analyzeFile sample_world "down.ts" (scan_file "down.ts")) = Ok None
  /\ ~ (exists path_of cause_of, failed_outcome_carries path_of cause_of).
Proof.
  split; [reflexivity|]. split; [reflexivity|].
  intros (path_of & cause_of & Hcarries).
  assert (failure sample_world "missing.ts" (scan_file "missing.ts")
            "ENOENT: no such file or directory, open 'missing.ts'") as H1.
  { by apply unreadable_file. }
  assert (failure sample_world "down.ts" (scan_file "down.ts")
            "API error: Internal Server Error") as H2.
  { by eapply (http_status _ _ _ "code of down.ts"
                 (Response.Make 500 "Internal Server Error" (Throw "unused"))). }
  destruct (Hcarries _ _ _ _ None H1 eq_refl) as [Hp1 _].
  destruct (Hcarries _ _ _ _ None H2 eq_refl) as [Hp2 _].
  rewrite Hp1 in Hp2. discriminate Hp2.
Qed.

(** C3, amended.  On every failure mode (unreadable file, network error,
    non-success status, malformed body) [analyzeFile] returns normally and
    what it returns is [null]; the path of the file and the cause are
    reported in the failure line of the spinner, the last line the
    analysis logs. *)
Theorem analyzeFile_failure_reported w filePath options cause :
  failure w filePath options cause ->
  snd (analyzeFile w filePath options) = Ok None
  /\ last (fst (analyzeFile w filePath options))
     = Some (SpinnerFail ("Failed to analyze " +:+ filePath +:+ ": " +:+ cause)).
Proof. apply analyzeFile_failure. Qed.

Lemma analyzeFile_failure_reported_witness :
  snd (analyzeFile sample_world "garbled.ts" (scan_file "garbled.ts")) = Ok None
  /\ last (fst (analyzeFile sample_world "garbled.ts" (scan_file "garbled.ts")))
     = Some (SpinnerFail
               "Failed to analyze garbled.ts: Unexpected token < in JSON").
Proof.
  apply (analyzeFile_failure_reported sample_world "garbled.ts"
           (scan_file "garbled.ts") "Unexpected token < in JSON").
  by eapply (malformed_body _ _ _ "code of garbled.ts"
               (Response.Make 200 "OK" (Throw "Unexpected token < in JSON"))).
Defined.

(** ** Facts about [Promise.all] *)

(** A completion order can be checked by computation. *)
Lemma all_settle_check (n : nat) (order : list nat) :
  forallb (fun i => bool_decide (i ∈ order)) (seq 0 n) = true ->
  all_settle n order.
Proof.
  intros Hall i Hi. rewrite forallb_forall in Hall.
  eapply bool_decide_eq_true_1, Hall, in_seq. lia.
Qed.

Lemma mapM_id_None {A} (values : list (option A)) :
  mapM id values = None -> exists i, values !! i = Some None.
Proof.
  induction values as [|x values IH]; [discriminate|].
  destruct x as [a|]; [|by exists 0].
  cbn. destruct (mapM id values) as [l|]; [discriminate|].
  intros _. destruct (IH eq_refl) as [i Hi]. by exists (S i).
Qed.

Lemma mapM_id_Some {A} (values : list (option A)) (l : list A) :
  mapM id values = Some l ->
  length l = length values /\ forall i x, l !! i = Some x -> values !! i = Some (Some x).
Proof.
  intros H%mapM_Some. split; [symmetry; by eapply Forall2_length|].
  intros i x Hx.
  destruct (Forall2_lookup_r _ _ _ _ _ H Hx) as (y & Hy & Heq).
  cbn in Heq. by subst y.
Qed.

Section PromiseAll.

Context {A : Type}.
Variable vs : list A.

Lemma agrees_insert values i v :
  agrees vs values -> vs !! i = Some v -> agrees vs (<[i := Some v]> values).
Proof.
  intros [Hlen Hval] Hv. split; [by rewrite length_insert|].
  intros j x Hj. destruct (decide (i = j)) as [->|Hne].
  - rewrite list_lookup_insert_eq in Hj; [congruence|].
    rewrite Hlen. by eapply lookup_lt_Some.
  - rewrite list_lookup_insert_ne in Hj by done. by apply Hval.
Qed.

Lemma agrees_full values l :
  agrees vs values -> mapM id values = Some l -> l = vs.
Proof.
  intros [Hlen Hval] [Hl Hlookup]%mapM_id_Some.
  apply list_eq. intros i. destruct (l !! i) as [x|] eqn:Hx.
  - symmetry. by apply Hval, Hlookup.
  - symmetry. apply lookup_ge_None. apply lookup_ge_None in Hx. lia.
Qed.

Lemma settle_fulfilled order :
  forall values,
    agrees vs values ->
    (forall i, values !! i = Some None -> i ∈ order) ->
    (exists i, values !! i = Some None) ->
    settle (map Ok vs) order values = Some (Ok vs).
Proof.
  change (map Ok vs) with (Ok <$> vs).
  induction order as [|j rest IH]; intros values Hag Hdue [i Hi].
  - by apply Hdue, not_elem_of_nil in Hi.
  - cbn [settle]. rewrite list_lookup_fmap.
    destruct (vs !! j) as [v|] eqn:Hv; cbn.
    + pose proof (agrees_insert values j v Hag Hv) as Hag'.
      destruct (mapM id (<[j := Some v]> values)) as [l|] eqn:Hm.
      * by rewrite (agrees_full _ _ Hag' Hm).
      * apply IH; [done| |by apply mapM_id_None].
        intros k Hk. destruct (decide (j = k)) as [->|Hne].
        -- rewrite list_lookup_insert_eq in Hk; [discriminate|].
           destruct Hag as [-> _]. by eapply lookup_lt_Some.
        -- rewrite list_lookup_insert_ne in Hk by done.
           apply Hdue in Hk. apply elem_of_cons in Hk as [->|]; done.
    + apply IH; [done| |by exists i].
      intros k Hk. pose proof (Hdue k Hk) as Hin.
      apply elem_of_cons in Hin as [->|]; [|done].
      apply lookup_lt_Some in Hk. destruct Hag as [Hlen _].
      apply lookup_ge_None in Hv. lia.
Qed.

(** When every promise is fulfilled, [Promise.all] is fulfilled with the
    values in input order, whatever the completion order. *)
Lemma Promise_all_fulfilled order :
  all_settle (length vs) order ->
  Promise_all (map Ok vs) order = Some (Ok vs).
Proof.
  intros Hall. unfold Promise_all.
  destruct (map Ok vs) as [|p ps] eqn:Hps.
  { by destruct vs. }
  rewrite <- Hps, length_map.
  assert (0 < length vs) as Hpos by (destruct vs; [discriminate|cbn; lia]).
  apply settle_fulfilled.
  - split; [by rewrite length_replicate|].
    intros i x [Hx _]%lookup_replicate. discriminate.
  - intros i [_ Hi]%lookup_replicate. by apply Hall.
  - exists 0. by apply lookup_replicate.
Qed.

End PromiseAll.

(** ** Facts about the orchestrator *)

Lemma outcome_of_success w options file result :
  success w file options result -> outcome_of w options file = Some result.
Proof.
  intros Hs. unfold outcome_of. by rewrite (analyzeFile_success _ _ _ _ Hs).
Qed.

Lemma outcome_of_failure w options file cause :
  failure w file options cause -> outcome_of w options file = None.
Proof.
  intros Hf. unfold outcome_of.
  by destruct (analyzeFile_failure _ _ _ _ Hf) as [-> _].
Qed.

Lemma dispatch_fulfilled w options files :
  map (fun file => snd (analyzeFile w file options)) files
  = map Ok (map (outcome_of w options) files).
Proof.
  induction files as [|file files IH]; [reflexivity|].
  cbn [map]. by rewrite IH, analyzeFile_outcome_of.
Qed.

Lemma orchestrate_fulfilled w options files order :
  all_settle (length files) order ->
  orchestrate w options files order
  = Some (Ok (map (outcome_of w options) files)).
Proof.
  intros Hall. unfold orchestrate. rewrite dispatch_fulfilled.
  apply Promise_all_fulfilled. by rewrite length_map.
Qed.

Lemma successful_all w options files :
  (forall file, file ∈ files -> exists r, success w file options r) ->
  length (successful (map (outcome_of w options) files)) = length files.
Proof.
  induction files as [|file files IH]; intros Hall; [reflexivity|].
  destruct (Hall file) as [r Hr]; [apply list_elem_of_here|].
  cbn [map]. rewrite (outcome_of_success _ _ _ _ Hr).
  change (successful (Some r :: ?l)) with (r :: successful l).
  cbn [length]. rewrite IH; [done|].
  intros f Hf. apply Hall. by apply list_elem_of_further.
Qed.

Lemma successful_app (l1 l2 : list Outcome) :
  successful (l1 ++ l2) = successful l1 ++ successful l2.
Proof. unfold successful. apply omap_app. Qed.

(** C2. When every dispatched analysis settles, in any completion order,
    the orchestrator returns one outcome per file: as many outcomes as
    files, the outcome at each position being what [analyzeFile] returns
    for the file at that position (the parsed body when it succeeds,
    [null] when it fails).  When exactly one file fails, its outcome is
    [null] and the outcomes of all others are successful. *)
Theorem one_outcome_per_file w options files order :
  all_settle (length files) order ->
  exists outcomes,
    orchestrate w options files order = Some (Ok outcomes)
    /\ length outcomes = length files
    /\ (forall i file,
          files !! i = Some file ->
          exists outcome,
            outcomes !! i = Some outcome
            /\ snd (analyzeFile w file options) = Ok outcome
            /\ (forall result, success w file options result ->
                               outcome = Some result)
            /\ (forall cause, failure w file options cause -> outcome = None))
    /\ (forall before failing after cause,
          files = before ++ failing :: after ->
          failure w failing options cause ->
          (forall file, file ∈ before ++ after ->
                        exists result, success w file options result) ->
          outcomes !! length before = Some None
          /\ length (successful outcomes) = length files - 1).
Proof.
  intros Hall. exists (map (outcome_of w options) files).
  split; [by apply orchestrate_fulfilled|].
  split; [by rewrite length_map|].
  split.
  - intros i file Hfile. exists (outcome_of w options file).
    split; [|split; [|split]].
    + change (map ?f ?l) with (f <$> l). by rewrite list_lookup_fmap, Hfile.
    + apply analyzeFile_outcome_of.
    + intros result Hs. by apply outcome_of_success.
    + intros cause Hf. by eapply outcome_of_failure.
  - intros before failing after cause -> Hf Hothers.
    rewrite map_app. cbn [map]. rewrite (outcome_of_failure _ _ _ _ Hf).
    split.
    + rewrite lookup_app_r; rewrite length_map; [|lia].
      by rewrite Nat.sub_diag.
    + rewrite successful_app.
      change (successful (None :: ?l)) with (successful l).
      rewrite !length_app, !successful_all; cbn [length]; [lia| |].
      * intros f Hin. apply Hothers, elem_of_app. by right.
      * intros f Hin. apply Hothers, elem_of_app. by left.
Qed.

Lemma one_outcome_per_file_witness :
  exists outcomes,
    orchestrate sample_world (scan_directory "root")
      ["root/a.ts"; "root/b.ts"; "root/src/Main.TS"]%string [2; 0; 1]
    = Some (Ok outcomes)
    /\ length outcomes = 3
    /\ outcomes !! 2 = Some None
    /\ length (successful outcomes) = 2.
Proof.
  destruct (one_outcome_per_file sample_world (scan_directory "root")
              ["root/a.ts"; "root/b.ts"; "root/src/Main.TS"]%string [2; 0; 1])
    as (outcomes & Hrun & Hlen & _ & Hone).
  - by apply all_settle_check.
  - exists outcomes. split; [exact Hrun|]. split; [exact Hlen|].
    apply (Hone ["root/a.ts"; "root/b.ts"]%string "root/src/Main.TS"%string []
                "API error: Service Unavailable"%string eq_refl).
    + by eapply (http_status _ _ _ "code of root/src/Main.TS"
                   (Response.Make 503 "Service Unavailable" (Throw "unused"))).
    + intros file [->|[->|Hin%not_elem_of_nil]%elem_of_cons]%elem_of_cons;
        [| |done]; eexists; by eapply analysed.
Defined.

(** ** Facts about the [scan] action *)

Section ScanRuns.

Variable join : string -> string -> string.

Lemma scan_usage_error w options order :
  truthy (Options.file options) = false ->
  truthy (Options.directory options) = false ->
  scan join w options order
  = Run [ConsoleError "Error: Please specify --file or --directory"]
        None (Exit 1).
Proof. intros Hf Hd. unfold scan. by rewrite Hf, Hd. Qed.

Lemma scan_completes w options order :
  truthy (Options.file options) || truthy (Options.directory options) = true ->
  all_settle (length (scan_files join w options)) order ->
  scan join w options order
  = Run ([SpinnerStart "Starting scan...";
          SpinnerFound (length (scan_files join w options));
          SpinnerSucceed "Scan complete!"]
         ++ map ConsoleLog
              (displayResults
                 (map (outcome_of w options) (scan_files join w options))))
        (Some (map (outcome_of w options) (scan_files join w options)))
        (Exit 0).
Proof.
  intros Hopt Hall. unfold scan.
  rewrite <- negb_orb, Hopt. cbn [negb].
  by rewrite orchestrate_fulfilled.
Qed.

Lemma scan_files_file w options path :
  Options.file options = Some path -> path <> ""%string ->
  scan_files join w options = [path].
Proof.
  intros Hfile Hne. unfold scan_files, truthy. rewrite Hfile. cbn.
  destruct (String.eqb path "") eqn:Heq; [|reflexivity].
  by apply String.eqb_eq in Heq.
Qed.

End ScanRuns.

Lemma display_step_no_vulnerabilities st result :
  Result.vulnerabilities result = None ->
  display_step st (Some result) = st.
Proof.
  intros Hnone. unfold display_step. rewrite Hnone. cbn.
  rewrite Nat.add_0_r. by destruct st.
Qed.

(** C7. Two runs of the scan over the same options, file system and
    service, whatever the order in which the analyses complete in each,
    are the same run: the same outcomes in the same order and the same
    printed total. *)
Theorem scan_same_report (join : string -> string -> string) w options
  (order1 order2 : list nat) :
  all_settle (length (scan_files join w options)) order1 ->
  all_settle (length (scan_files join w options)) order2 ->
  scan join w options order1 = scan join w options order2
  /\ (truthy (Options.file options) || truthy (Options.directory options) = true ->
      exists outcomes,
        results (scan join w options order1) = Some outcomes
        /\ results (scan join w options order2) = Some outcomes
        /\ ConsoleLog (Total (expected_total outcomes))
             ∈ log (scan join w options order1)
        /\ ConsoleLog (Total (expected_total outcomes))
             ∈ log (scan join w options order2)).
Proof.
  intros H1 H2.
  destruct (truthy (Options.file options) || truthy (Options.directory options))
    eqn:Hopt.
  - rewrite !scan_completes by done. split; [reflexivity|].
    intros _. eexists. split; [reflexivity|]. split; [reflexivity|].
    assert (forall rs (pre : list event),
               ConsoleLog (Total (expected_total rs))
                 ∈ pre ++ map ConsoleLog (displayResults rs)) as Hin.
    { intros rs pre. apply elem_of_app. right.
      apply (list_elem_of_fmap_2 ConsoleLog), displayResults_total. }
    split; apply Hin.
  - apply orb_false_elim in Hopt as [Hf Hd].
    rewrite !scan_usage_error by done. split; [reflexivity|discriminate].
Qed.

Lemma scan_same_report_witness :
  scan slash_join sample_world (scan_directory "root") [2; 0; 1]
  = scan slash_join sample_world (scan_directory "root") [0; 1; 1; 2]
  /\ exists outcomes,
       results (scan slash_join sample_world (scan_directory "root") [2; 0; 1])
       = Some outcomes
       /\ results (scan slash_join sample_world (scan_directory "root") [0; 1; 1; 2])
          = Some outcomes.
Proof.
  destruct (scan_same_report slash_join sample_world (scan_directory "root")
              [2; 0; 1] [0; 1; 1; 2]) as [Hsame Hreport].
  - by apply all_settle_check.
  - by apply all_settle_check.
  - split; [exact Hsame|].
    destruct (Hreport eq_refl) as (outcomes & Ho1 & Ho2 & _).
    exists outcomes. by split.
Defined.

(** C5, as stated, fails: the scan of the single file [missing.ts], which
    does not exist, yields the failed outcome [null] for it, and the run
    then ends with exit code 0, not with a non-zero code. *)
Lemma missing_file_exits_with_0 :
  readFileSync sample_world "missing.ts"
  = Throw "ENOENT: no such file or directory, open 'missing.ts'"
  /\ results (scan slash_join sample_world (scan_file "missing.ts") [0])
     = Some [None]
  /\ end_of_run (scan slash_join sample_world (scan_file "missing.ts") [0])
     = Exit 0
  /\ ~ (exists code, code <> 0%Z
        /\ end_of_run (scan slash_join sample_world (scan_file "missing.ts") [0])
           = Exit code).
Proof.
  split; [reflexivity|]. split; [reflexivity|]. split; [reflexivity|].
  intros (code & Hne & Hexit). cbn in Hexit. by injection Hexit as <-.
Qed.

(** C5, amended.  The scan of a single file that cannot be read yields the
    failed outcome [null] for that file, reported in the failure line of
    its spinner; the scan then completes, prints a total of 0 and "no
    issues", and the run ends with exit code 0. *)
Theorem missing_file_scan (join : string -> string -> string) w options
  (path message : string) (order : list nat) :
  Options.file options = Some path ->
  path <> ""%string ->
  readFileSync w path = Throw message ->
  all_settle 1 order ->
  scan join w options order
  = Run [SpinnerStart "Starting scan..."; SpinnerFound 1;
         SpinnerSucceed "Scan complete!";
         ConsoleLog Rule; ConsoleLog Title; ConsoleLog Rule;
         ConsoleLog (Total 0); ConsoleLog NoIssues]
        (Some [None]) (Exit 0)
  /\ analyzeFile w path options
     = ([SpinnerStart ("Analyzing " +:+ path +:+ "...");
         SpinnerFail ("Failed to analyze " +:+ path +:+ ": " +:+ message)],
        Ok None).
Proof.
  intros Hfile Hne Hread Hall.
  assert (outcome_of w options path = None) as Hnull.
  { eapply outcome_of_failure. by apply unreadable_file. }
  split.
  - rewrite scan_completes.
    + rewrite (scan_files_file join w options path Hfile Hne).
      cbn [map length]. by rewrite Hnull.
    + unfold truthy at 1. rewrite Hfile.
      destruct (String.eqb path "") eqn:Heq; [|reflexivity].
      by apply String.eqb_eq in Heq.
    + by rewrite (scan_files_file join w options path Hfile Hne).
  - run_analyzeFile. by rewrite Hread.
Qed.

Lemma missing_file_scan_witness :
  scan slash_join sample_world (scan_file "missing.ts") [0]
  = Run [SpinnerStart "Starting scan..."; SpinnerFound 1;
         SpinnerSucceed "Scan complete!";
         ConsoleLog Rule; ConsoleLog Title; ConsoleLog Rule;
         ConsoleLog (Total 0); ConsoleLog NoIssues]
        (Some [None]) (Exit 0).
Proof.
  apply (missing_file_scan slash_join sample_world (scan_file "missing.ts")
           "missing.ts"
           "ENOENT: no such file or directory, open 'missing.ts'" [0]).
  - reflexivity.
  - discriminate.
  - reflexivity.
  - by apply all_settle_check.
Defined.

(** C8. A 2xx response whose body has no [vulnerabilities] field makes a
    successful outcome: the analysis logs success and returns the body,
    which adds 0 to the total, prints no line of its own, and alone gives
    a clean report. *)
Theorem missing_vulnerabilities_is_clean w filePath options
  (code : string) (response : Response.t) (result : Result.t) :
  readFileSync w filePath = Ok code ->
  fetch w (scan_url w) (scan_request code options) = Ok response ->
  (200 <= Response.status response <= 299)%Z ->
  Response.json response = Ok result ->
  Result.vulnerabilities result = None ->
  analyzeFile w filePath options
  = ([SpinnerStart ("Analyzing " +:+ filePath +:+ "...");
      Post (scan_url w) (scan_request code options);
      SpinnerSucceed ("Analyzed " +:+ filePath)],
     Ok (Some result))
  /\ (forall before after,
        totalVulns (before ++ Some result :: after) = totalVulns (before ++ after)
        /\ displayResults (before ++ Some result :: after)
           = displayResults (before ++ after))
  /\ displayResults [Some result] = [Rule; Title; Rule; Total 0; NoIssues].
Proof.
  intros Hread Hfetch Hstatus Hjson Hnone.
  assert (Response.ok response = true) as Hok.
  { unfold Response.ok. apply andb_true_iff. split; apply Z.leb_le; lia. }
  assert (forall before after,
             display_loop (before ++ Some result :: after)
             = display_loop (before ++ after)) as Hloop.
  { intros before after. unfold display_loop.
    rewrite !fold_left_app. cbn [fold_left].
    by rewrite display_step_no_vulnerabilities. }
  split; [|split].
  - rewrite (analyzeFile_success w filePath options result).
    + by rewrite Hread.
    + by eapply analysed.
  - intros before after. unfold displayResults, totalVulns.
    by rewrite Hloop.
  - unfold displayResults, totalVulns, display_loop. cbn [fold_left].
    by rewrite display_step_no_vulnerabilities.
Qed.

Lemma missing_vulnerabilities_is_clean_witness :
  analyzeFile sample_world "bare.ts" (scan_file "bare.ts")
  = ([SpinnerStart "Analyzing bare.ts...";
      Post "http://localhost:3000/api/v1/security/scan"
           (Request.Make "code of bare.ts" None);
      SpinnerSucceed "Analyzed bare.ts"],
     Ok (Some (Result.Make None None)))
  /\ displayResults [Some (Result.Make None None)]
     = [Rule; Title; Rule; Total 0; NoIssues].
Proof.
  destruct (missing_vulnerabilities_is_clean sample_world "bare.ts"
              (scan_file "bare.ts") "code of bare.ts"
              (Response.Make 200 "OK" (Ok (Result.Make None None)))
              (Result.Make None None)
              eq_refl eq_refl ltac:(cbn; lia) eq_refl eq_refl)
    as (Hrun & _ & Hclean).
  split; [exact Hrun|exact Hclean].
Defined.

(** C9. When the file option is given, the files to scan are that one
    file, whatever the directory option and the file system hold: the run
    is the same over any other file system, and its only outcome is that
    of the file. *)
Theorem file_option_wins (join : string -> string -> string) w options
  (path : string) (order : list nat) :
  Options.file options = Some path ->
  path <> ""%string ->
  scan_files join w options = [path]
  /\ (forall l, scan_files join (with_lookup w l) options = [path])
  /\ (forall l, scan join (with_lookup w l) options order
                = scan join w options order)
  /\ (all_settle 1 order ->
      results (scan join w options order) = Some [outcome_of w options path]).
Proof.
  intros Hfile Hne.
  split; [by apply scan_files_file|].
  split; [intros l; by apply scan_files_file|].
  split.
  - intros l. unfold scan.
    rewrite !(scan_files_file join _ options path Hfile Hne).
    reflexivity.
  - intros Hall. rewrite scan_completes.
    + by rewrite (scan_files_file join w options path Hfile Hne).
    + unfold truthy at 1. rewrite Hfile.
      destruct (String.eqb path "") eqn:Heq; [|reflexivity].
      by apply String.eqb_eq in Heq.
    + by rewrite (scan_files_file join w options path Hfile Hne).
Qed.

Lemma file_option_wins_witness :
  scan_files slash_join sample_world
    (Options.Make (Some "root/b.ts") (Some "root") None None)%string
  = ["root/b.ts"%string]
  /\ results (scan slash_join sample_world
                (Options.Make (Some "root/b.ts") (Some "root") None None)%string
                [0])
     = Some [Some (Result.Make None (Some [high_at_3]))].
Proof.
  destruct (file_option_wins slash_join sample_world
              (Options.Make (Some "root/b.ts") (Some "root") None None)%string
              "root/b.ts" [0] eq_refl ltac:(discriminate))
    as (Hfiles & _ & _ & Hrun).
  split; [exact Hfiles|].
  exact (Hrun (all_settle_check 1 [0] eq_refl)).
Defined.

(** * Further properties of the code *)

(** ** Discovery *)

Section MoreDiscovery.

Variable join : string -> string -> string.
Variable extensions : list string.

Lemma getFiles_sound_at n :
  forall dir path,
    path ∈ getFiles join extensions dir n ->
    discovered join extensions dir n path.
Proof.
  induction n as [| | | |items IH] using node_ind; intros dir path;
    try (cbn; by intros ?%not_elem_of_nil).
  induction items as [|[item child] rest IHrest].
  - rewrite getFiles_nil. by intros ?%not_elem_of_nil.
  - apply Forall_cons in IH as [IHchild IH]. cbn [snd] in IHchild.
    specialize (IHrest IH). rewrite discovered_cons.
    destruct child.
    + rewrite getFiles_file.
      destruct (includes extensions (toLowerCase (extname item))) eqn:Hin.
      * apply includes_elem_of in Hin.
        intros [->|Hrest]%elem_of_cons; [by left|]. right. right. auto.
      * intros Hrest. right. right. auto.
    + rewrite getFiles_special. intros Hrest. right. right. auto.
    + rewrite getFiles_stat_error. by intros ?%not_elem_of_nil.
    + destruct (excluded item) eqn:Hx.
      * rewrite getFiles_excluded_dir by done. intros Hrest. right. right. auto.
      * rewrite getFiles_subdir by done.
        intros [Hsub|Hrest]%elem_of_app; [|right; right; auto].
        by apply not_elem_of_nil in Hsub.
    + destruct (excluded item) eqn:Hx.
      * rewrite getFiles_excluded_dir by done. intros Hrest. right. right. auto.
      * rewrite getFiles_subdir by done.
        intros [Hsub|Hrest]%elem_of_app; [|right; right; auto].
        right. left. split; [done|]. split; [done|]. by apply IHchild.
Qed.

Lemma getFiles_app_at dir l1 l2 :
  Forall (fun e => snd e <> StatError) l1 ->
  getFiles join extensions dir (Directory (l1 ++ l2))
  = getFiles join extensions dir (Directory l1)
    ++ getFiles join extensions dir (Directory l2).
Proof.
  induction l1 as [|[item child] l1 IH]; intros Hok; [reflexivity|].
  apply Forall_cons in Hok as [Hchild Hok]. cbn [snd] in Hchild.
  specialize (IH Hok). cbn [app].
  destruct child.
  - rewrite !getFiles_file.
    destruct (includes extensions (toLowerCase (extname item)));
      by rewrite IH.
  - by rewrite !getFiles_special.
  - done.
  - destruct (excluded item) eqn:Hx.
    + by rewrite !getFiles_excluded_dir.
    + rewrite !getFiles_subdir by done. by rewrite IH, app_assoc.
  - destruct (excluded item) eqn:Hx.
    + by rewrite !getFiles_excluded_dir.
    + rewrite !getFiles_subdir by done. by rewrite IH, app_assoc.
Qed.

Lemma getFiles_skip_file dir before item after :
  includes extensions (toLowerCase (extname item)) = false ->
  getFiles join extensions dir (Directory (before ++ (item, RegularFile) :: after))
  = getFiles join extensions dir (Directory (before ++ after)).
Proof.
  intros Hno.
  induction before as [|[i c] before IH]; cbn [app].
  - by rewrite getFiles_file, Hno.
  - destruct c.
    + rewrite !getFiles_file. by rewrite IH.
    + rewrite !getFiles_special. apply IH.
    + by rewrite !getFiles_stat_error.
    + destruct (excluded i) eqn:Hx.
      * rewrite !getFiles_excluded_dir by done. apply IH.
      * rewrite !getFiles_subdir by done. by rewrite IH.
    + destruct (excluded i) eqn:Hx.
      * rewrite !getFiles_excluded_dir by done. apply IH.
      * rewrite !getFiles_subdir by done. by rewrite IH.
Qed.

End MoreDiscovery.

(** X1. Whatever fails during the traversal, [getFiles] never returns a
    path that discovery should not find: every returned path is a regular
    file with a matching extension, reached without entering an excluded
    directory. *)
Theorem getFiles_sound (join : string -> string -> string)
  (extensions : list string) (dir : string) (n : node) (path : string) :
  path ∈ getFiles join extensions dir n ->
  discovered join extensions dir n path.
Proof. apply getFiles_sound_at. Qed.

Lemma getFiles_sound_witness :
  discovered slash_join default_extensions "root" sample_tree "root/b.ts".
Proof.
  apply (getFiles_sound slash_join default_extensions "root" sample_tree).
  apply list_elem_of_further, list_elem_of_here.
Defined.

(** X2. The files are returned in the order of the directory listing,
    each subdirectory expanded in place: when [statSync] fails on none of
    the entries [l1], the result for the listing [l1 ++ l2] is the result
    for [l1] followed by the result for [l2].  A failure deeper inside a
    subdirectory of [l1] stays inside that subdirectory. *)
Theorem getFiles_app (join : string -> string -> string)
  (extensions : list string) (dir : string) (l1 l2 : list (string * node)) :
  Forall (fun e => snd e <> StatError) l1 ->
  getFiles join extensions dir (Directory (l1 ++ l2))
  = getFiles join extensions dir (Directory l1)
    ++ getFiles join extensions dir (Directory l2).
Proof. apply getFiles_app_at. Qed.

Lemma getFiles_app_witness :
  getFiles slash_join [".ts"%string] "root"
    (Directory ([("sub", dangling_tree); ("x.ts", RegularFile)]%string
                ++ [("y.ts", RegularFile)]%string))
  = ["root/x.ts"; "root/y.ts"]%string.
Proof.
  rewrite (getFiles_app slash_join [".ts"%string] "root"
             [("sub", dangling_tree); ("x.ts", RegularFile)]%string
             [("y.ts", RegularFile)]%string).
  - reflexivity.
  - repeat constructor; discriminate.
Defined.

(** ** The extension list *)

Lemma split_nonempty (sep : ascii) (s : string) : split sep s <> [].
Proof.
  induction s as [|c r IH]; [discriminate|].
  cbn. destruct (Ascii.eqb c sep); [discriminate|].
  by destruct (split sep r).
Qed.

Lemma default_extensions_dotted :
  Forall (fun e => startsWith e "." = true) default_extensions.
Proof. repeat constructor. Qed.

(** X3. The extension list handed to discovery is never empty and each of
    its entries begins with a dot, whatever the user supplies: the
    built-in list, or one entry per comma-separated piece (an empty piece
    becomes the lone dot). *)
Theorem scan_extensions_dotted (options : Options.t) :
  scan_extensions options <> []
  /\ Forall (fun e => startsWith e "." = true) (scan_extensions options)
  /\ (forall raw, Options.extensions options = Some raw -> raw <> ""%string ->
        length (scan_extensions options) = length (split "," raw)).
Proof.
  unfold scan_extensions. split; [|split].
  - destruct (truthy (Options.extensions options)); [|discriminate].
    intros Hnil. apply map_eq_nil in Hnil. by apply split_nonempty in Hnil.
  - destruct (truthy (Options.extensions options));
      [|apply default_extensions_dotted].
    apply Forall_forall. intros e (x & -> & _)%list_elem_of_fmap.
    apply dotted_startsWith.
  - intros raw Hraw Hne. unfold truthy. rewrite Hraw. cbn.
    destruct (String.eqb raw "") eqn:Heq.
    + by apply String.eqb_eq in Heq.
    + cbn. apply length_map.
Qed.

Lemma scan_extensions_dotted_witness :
  length (scan_extensions (Options.Make None (Some "root") None (Some "ts,,go"))%string)
  = 3.
Proof.
  apply (proj2 (proj2 (scan_extensions_dotted
                         (Options.Make None (Some "root") None (Some "ts,,go"))%string))
           "ts,,go"%string eq_refl).
  discriminate.
Defined.

Lemma includes_empty_extension (options : Options.t) :
  includes (scan_extensions options) ""%string = false.
Proof.
  apply includes_not_elem_of. intros Hin.
  destruct (scan_extensions_dotted options) as (_ & Hdot & _).
  rewrite Forall_forall in Hdot. by apply Hdot in Hin.
Qed.

(** X4. A regular file whose name has no extension ([extname] gives the
    empty string) is never picked up by a directory scan, whatever
    extension list the user gives: the listing without it gives the same
    files. *)
Theorem extensionless_never_scanned (join : string -> string -> string)
  (options : Options.t) (dir : string)
  (before after : list (string * node)) (item : string) :
  extname item = ""%string ->
  getFiles join (scan_extensions options) dir
    (Directory (before ++ (item, RegularFile) :: after))
  = getFiles join (scan_extensions options) dir (Directory (before ++ after)).
Proof.
  intros Hext. apply getFiles_skip_file.
  rewrite Hext. apply includes_empty_extension.
Qed.

Lemma extensionless_never_scanned_witness :
  getFiles slash_join
    (scan_extensions (Options.Make None (Some "root") None (Some ",")))%string
    "root"
    (Directory ([("a.ts", RegularFile)] ++ (".eslintrc", RegularFile)
                :: [("Makefile", RegularFile)]))%string
  = getFiles slash_join
      (scan_extensions (Options.Make None (Some "root") None (Some ",")))%string
      "root"
      (Directory ([("a.ts", RegularFile)] ++ [("Makefile", RegularFile)]))%string.
Proof.
  apply (extensionless_never_scanned slash_join
           (Options.Make None (Some "root") None (Some ","))%string "root"
           [("a.ts", RegularFile)]%string [("Makefile", RegularFile)]%string
           ".eslintrc"%string).
  reflexivity.
Defined.

(** ** The per-file analysis *)

Ltac in_log H :=
  repeat (apply elem_of_cons in H as [H|H]; [try discriminate H|]);
  try (by apply not_elem_of_nil in H).

(** X5. An analysis sends at most one request: none when the file cannot
    be read, exactly one otherwise; the request goes to the scan endpoint
    and carries the content of the file and the language option, an empty
    language counting as absent. *)
Theorem analyzeFile_posts_once w filePath options :
  length (List.filter is_post (fst (analyzeFile w filePath options)))
  = match readFileSync w filePath with
    | Ok _ => 1
    | Throw _ => 0
    end
  /\ (forall url body,
        Post url body ∈ fst (analyzeFile w filePath options) ->
        url = scan_url w
        /\ readFileSync w filePath = Ok (Request.code body)
        /\ Request.language body = or_undefined (Options.language options)).
Proof.
  run_analyzeFile.
  destruct (readFileSync w filePath) as [code|message]; cbn.
  2: { split; [reflexivity|]. intros url body H. in_log H. }
  destruct (fetch w (scan_url w) (scan_request code options))
    as [response|message]; cbn.
  2: { split; [reflexivity|]. intros url body H. in_log H.
       by injection H as -> ->. }
  destruct (Response.ok response); cbn.
  2: { split; [reflexivity|]. intros url body H. in_log H.
       by injection H as -> ->. }
  destruct (Response.json response) as [result|message]; cbn.
  - split; [reflexivity|]. intros url body H. in_log H.
    by injection H as -> ->.
  - split; [reflexivity|]. intros url body H. in_log H.
    by injection H as -> ->.
Qed.

Lemma analyzeFile_posts_once_witness :
  Post "http://localhost:3000/api/v1/security/scan"
       (Request.Make "code of down.ts" None)
    ∈ fst (analyzeFile sample_world "down.ts"
             (Options.Make (Some "down.ts") None (Some "") None))%string
  /\ Request.language (Request.Make "code of down.ts" None) = None.
Proof.
  split; [apply list_elem_of_further, list_elem_of_here|].
  apply (proj2 (analyzeFile_posts_once sample_world "down.ts"
                  (Options.Make (Some "down.ts") None (Some "") None)%string)
           "http://localhost:3000/api/v1/security/scan"%string
           (Request.Make "code of down.ts" None)).
  apply list_elem_of_further, list_elem_of_here.
Defined.


(** ** The report *)

Lemma display_loop_blocks (rs : list Outcome) (st : nat * list report_line) :
  fold_left display_step rs st
  = (fst st + expected_total rs, snd st ++ flat_map block rs).
Proof.
  revert st. induction rs as [|o rs IH]; intros [n out].
  - cbn. unfold expected_total. cbn. by rewrite Nat.add_0_r, app_nil_r.
  - cbn [fold_left]. rewrite IH, expected_total_cons.
    destruct o as [r|]; cbn [display_step block flat_map fst snd].
    + unfold vulnerabilities_of.
      destruct (default [] (Result.vulnerabilities r)) as [|v vs]; cbn.
      * f_equal. lia.
      * rewrite <- app_assoc. f_equal. lia.
    + reflexivity.
Qed.



Lemma nothing_found_total (rs : list Outcome) :
  expected_total rs = 0 <-> Forall nothing_found rs.
Proof.
  induction rs as [|o rs IH].
  - split; [constructor|reflexivity].
  - rewrite expected_total_cons, Forall_cons, <- IH.
    destruct o as [r|]; cbn [nothing_found].
    + rewrite <- length_zero_iff_nil. lia.
    + split; [by intros ?|by intros [_ ?]].
Qed.

Lemma nothing_found_blocks (rs : list Outcome) :
  Forall nothing_found rs -> flat_map block rs = [].
Proof.
  induction 1 as [|o rs Ho _ IH]; [reflexivity|].
  cbn [flat_map]. rewrite IH, app_nil_r.
  destruct o as [r|]; [|reflexivity]. cbn in *. by rewrite Ho.
Qed.

Lemma displayResults_unfolded (rs : list Outcome) :
  displayResults rs
  = [Rule; Title; Rule] ++ flat_map block rs
    ++ [Total (expected_total rs);
        if 0 <? expected_total rs then FixIssues else NoIssues].
Proof.
  unfold displayResults. rewrite totalVulns_expected.
  unfold display_loop. rewrite display_loop_blocks. cbn [snd].
  by rewrite <- app_assoc.
Qed.



(** X9. The verdict is "no issues" exactly when every outcome is failed
    or without vulnerabilities, and the report is then the bare banner
    with a total of 0: a scan in which every analysis failed is reported
    as clean. *)
Theorem clean_verdict (rs : list Outcome) :
  (last (displayResults rs) = Some NoIssues <-> Forall nothing_found rs)
  /\ (Forall nothing_found rs ->
      displayResults rs = [Rule; Title; Rule; Total 0; NoIssues]).
Proof.
  split.
  - rewrite <- nothing_found_total, displayResults_unfolded.
    rewrite app_assoc, last_app. cbn.
    destruct (expected_total rs) as [|n]; cbn; [done|].
    split; discriminate.
  - intros Hclean. rewrite displayResults_unfolded.
    rewrite (nothing_found_blocks rs Hclean).
    apply nothing_found_total in Hclean. by rewrite Hclean.
Qed.

Lemma clean_verdict_witness :
  displayResults [None; Some (Result.Make None None); None]
  = [Rule; Title; Rule; Total 0; NoIssues].
Proof.
  apply (proj2 (clean_verdict [None; Some (Result.Make None None); None])).
  repeat constructor.
Defined.

(** ** The fan-in when analyses do not all settle *)

Lemma mapM_id_hole {A} (values : list (option A)) (i : nat) :
  values !! i = Some None -> mapM id values = None.
Proof.
  revert i. induction values as [|x values IH]; intros i Hi; [done|].
  destruct i as [|i]; cbn in Hi.
  - injection Hi as ->. reflexivity.
  - cbn. rewrite (IH i Hi). by destruct x.
Qed.


Lemma settle_pending {A} (vs : list A) (order : list nat)
  (values : list (option A)) (i : nat) :
  values !! i = Some None -> i ∉ order ->
  settle (map Ok vs) order values = None.
Proof.
  change (map Ok vs) with (Ok <$> vs).
  revert values. induction order as [|j rest IH]; intros values Hi Hout; [done|].
  apply not_elem_of_cons in Hout as [Hne Hout].
  cbn [settle]. rewrite list_lookup_fmap.
  destruct (vs !! j) as [v|]; cbn; [|by apply IH].
  assert (<[j:=Some v]> values !! i = Some None) as Hi'.
  { by rewrite list_lookup_insert_ne. }
  rewrite (mapM_id_hole _ i Hi'). by apply IH.
Qed.


Lemma orchestrate_pending w options files order i :
  i < length files -> i ∉ order ->
  orchestrate w options files order = None.
Proof.
  intros Hi Hout. unfold orchestrate, Promise_all. rewrite dispatch_fulfilled.
  destruct (map Ok (map (outcome_of w options) files)) eqn:Hps.
  { destruct files; [cbn in Hi; lia|discriminate]. }
  rewrite <- Hps. apply (settle_pending _ _ _ i); [|done].
  apply lookup_replicate. split; [done|]. by rewrite !length_map.
Qed.



(** X11. A directory scan whose root cannot be listed (it does not exist,
    is not a directory or is unreadable) finds no file and, in any
    completion order, ends as a clean scan: zero files, a total of 0, the
    "no issues" verdict and exit code 0. *)
Theorem unlistable_root_is_clean (join : string -> string -> string) w options
  (directory : string) (order : list nat) :
  truthy (Options.file options) = false ->
  Options.directory options = Some directory ->
  directory <> ""%string ->
  (forall items, lookup w directory <> Directory items) ->
  scan join w options order
  = Run [SpinnerStart "Starting scan..."; SpinnerFound 0;
         SpinnerSucceed "Scan complete!";
         ConsoleLog Rule; ConsoleLog Title; ConsoleLog Rule;
         ConsoleLog (Total 0); ConsoleLog NoIssues]
        (Some []) (Exit 0).
Proof.
  intros Hfile Hdir Hne Hroot.
  assert (truthy (Options.directory options) = true) as Htruthy.
  { unfold truthy. rewrite Hdir.
    destruct (String.eqb directory "") eqn:Heq; [|reflexivity].
    by apply String.eqb_eq in Heq. }
  assert (scan_files join w options = []) as Hfiles.
  { unfold scan_files. rewrite Hfile, Htruthy, Hdir. cbn.
    by apply getFiles_not_listed. }
  unfold scan. rewrite Hfile, Htruthy, Hfiles. reflexivity.
Qed.

Lemma unlistable_root_is_clean_witness :
  scan slash_join sample_world (scan_directory "nowhere") [5; 7]
  = Run [SpinnerStart "Starting scan..."; SpinnerFound 0;
         SpinnerSucceed "Scan complete!";
         ConsoleLog Rule; ConsoleLog Title; ConsoleLog Rule;
         ConsoleLog (Total 0); ConsoleLog NoIssues]
        (Some []) (Exit 0).
Proof.
  apply (unlistable_root_is_clean slash_join sample_world
           (scan_directory "nowhere") "nowhere" [5; 7]).
  - reflexivity.
  - reflexivity.
  - discriminate.
  - intros items. discriminate.
Defined.

(** X12. There is no timeout: when one of the analyses never settles, the
    scan stays pending, with no report and no exit, whatever the others
    return. *)
Theorem scan_waits_for_all (join : string -> string -> string) w options
  (order : list nat) (i : nat) :
  truthy (Options.file options) || truthy (Options.directory options) = true ->
  i < length (scan_files join w options) ->
  i ∉ order ->
  scan join w options order
  = Run [SpinnerStart "Starting scan...";
         SpinnerFound (length (scan_files join w options))]
        None Pending.
Proof.
  intros Hopt Hi Hout. unfold scan.
  rewrite <- negb_orb, Hopt. cbn [negb].
  by rewrite (orchestrate_pending _ _ _ _ i).
Qed.

Lemma scan_waits_for_all_witness :
  scan slash_join sample_world (scan_directory "root") [2; 0]
  = Run [SpinnerStart "Starting scan..."; SpinnerFound 3] None Pending.
Proof.
  apply (scan_waits_for_all slash_join sample_world (scan_directory "root")
           [2; 0] 1).
  - reflexivity.
  - vm_compute. lia.
  - intros Hin. in_log Hin.
Defined.

(** ** The commands [explain], [languages] and [doctor] *)

Ltac run_act :=
  unfold act_catch, act_bind, await, say, act_ret, act_throw; cbn -[for_each].


Lemma explain_usage w r options :
  truthy (ExplainOptions.file options) = false ->
  truthy (ExplainOptions.code options) = false ->
  explain w r options
  = ([StdErr "Error: Please specify --file or --code"], Ok 1%Z).
Proof. intros Hf Hc. unfold explain. rewrite Hf, Hc. reflexivity. Qed.

(** What [explain] does once one of its two options is given. *)
Lemma explain_run w r options :
  truthy (ExplainOptions.file options)
  || truthy (ExplainOptions.code options) = true ->
  explain w r options
  = match explain_source w options with
    | Throw message =>
        ([SpinStart "Analyzing code..."; SpinFail ("Failed: " +:+ message)],
         Ok 1%Z)
    | Ok code =>
        let post := HttpPost (explain_url w) (explain_request code options) in
        match fetch_explain r (explain_url w) (explain_request code options) with
        | Throw message =>
            ([SpinStart "Analyzing code..."; post;
              SpinFail ("Failed: " +:+ message)], Ok 1%Z)
        | Ok response =>
            if Reply.ok response
            then match Reply.json response with
                 | Throw message =>
                     ([SpinStart "Analyzing code..."; post;
                       SpinFail ("Failed: " +:+ message)], Ok 1%Z)
                 | Ok result =>
                     ([SpinStart "Analyzing code..."; post;
                       SpinSucceed "Analysis complete!"; ExplanationTitle;
                       ExplanationText (Explained.explanation result)], Ok 0%Z)
                 end
            else ([SpinStart "Analyzing code..."; post;
                   SpinFail ("Failed: API error: "
                             +:+ Reply.statusText response)], Ok 1%Z)
        end
    end.
Proof.
  intros Hopt. unfold explain. rewrite <- negb_orb, Hopt. cbn [negb].
  run_act. destruct (explain_source w options) as [code|message]; cbn; [|done].
  destruct (fetch_explain r _ _) as [response|message]; cbn; [|done].
  destruct (Reply.ok response); cbn; [|done].
  by destruct (Reply.json response).
Qed.


(** X14. [explain] prints an explanation only in a run that ends with
    exit code 0; in a run that fails after the options were accepted
    the last line is the failure line of the spinner. *)
Theorem explain_failure_prints_nothing w r options :
  (forall text, ExplanationText text ∈ fst (explain w r options) ->
                exit_code (explain w r options) = 0%Z)
  /\ (truthy (ExplainOptions.file options)
      || truthy (ExplainOptions.code options) = true ->
      exit_code (explain w r options) = 1%Z ->
      exists cause,
        last (fst (explain w r options)) = Some (SpinFail ("Failed: " +:+ cause))).
Proof.
  destruct (truthy (ExplainOptions.file options)
            || truthy (ExplainOptions.code options)) eqn:Hopt.
  2: { apply orb_false_elim in Hopt as [Hf Hc].
       rewrite (explain_usage w r options Hf Hc). cbn.
       split; [|discriminate]. intros text H. in_log H. }
  rewrite (explain_run w r options Hopt).
  destruct (explain_source w options) as [code|message]; cbn.
  2: { split; [intros text H; in_log H|]. intros _ _. by eexists. }
  destruct (fetch_explain r (explain_url w) (explain_request code options))
    as [response|message]; cbn.
  2: { split; [intros text H; in_log H|]. intros _ _. by eexists. }
  destruct (Reply.ok response); cbn.
  2: { split; [intros text H; in_log H|]. intros _ _. by eexists. }
  destruct (Reply.json response) as [result|message]; cbn.
  - split; [done|]. intros _ H. discriminate H.
  - split; [intros text H; in_log H|]. intros _ _. by eexists.
Qed.

Lemma explain_failure_prints_nothing_witness :
  exists cause,
    last (fst (explain sample_world sample_remote
                 (ExplainOptions.Make (Some "down.ts"%string) None None)))
    = Some (SpinFail ("Failed: " +:+ cause)).
Proof.
  apply (proj2 (explain_failure_prints_nothing sample_world sample_remote
                  (ExplainOptions.Make (Some "down.ts"%string) None None)));
    reflexivity.
Defined.

(** X15. When [--file] is given to [explain], [--code] is ignored: the
    code sent is the content of the file, whatever [--code] holds. *)
Theorem explain_file_wins w r (file : string) (code1 code2 language : option string) :
  file <> ""%string ->
  explain w r (ExplainOptions.Make (Some file) code1 language)
  = explain w r (ExplainOptions.Make (Some file) code2 language)
  /\ (forall url body,
        HttpPost url body
          ∈ fst (explain w r (ExplainOptions.Make (Some file) code1 language)) ->
        readFileSync w file = Ok (Request.code body)).
Proof.
  intros Hne.
  assert (truthy (Some file) = true) as Hfile.
  { cbn. destruct (String.eqb file "") eqn:Heq; [|reflexivity].
    by apply String.eqb_eq in Heq. }
  assert (forall c, explain_source w (ExplainOptions.Make (Some file) c language)
                    = readFileSync w file) as Hsrc.
  { intros c. unfold explain_source. cbn [ExplainOptions.file].
    by rewrite Hfile. }
  split.
  - rewrite !explain_run by (cbn [ExplainOptions.file]; by rewrite Hfile).
    rewrite !Hsrc. reflexivity.
  - intros url body.
    rewrite explain_run by (cbn [ExplainOptions.file]; by rewrite Hfile).
    rewrite Hsrc.
    destruct (readFileSync w file) as [code|message]; lazy beta iota zeta.
    2: { cbn [fst]. intros H. in_log H. }
    destruct (fetch_explain r (explain_url w) (explain_request code _))
      as [response|message]; lazy beta iota zeta.
    2: { cbn [fst]. intros H. in_log H. by injection H as _ ->. }
    destruct (Reply.ok response); lazy beta iota zeta.
    2: { cbn [fst]. intros H. in_log H. by injection H as _ ->. }
    destruct (Reply.json response); cbn [fst]; intros H; in_log H;
      by injection H as _ ->.
Qed.

Lemma explain_file_wins_witness :
  explain sample_world sample_remote
    (ExplainOptions.Make (Some "a.ts") (Some "x = 1") None)%string
  = explain sample_world sample_remote
      (ExplainOptions.Make (Some "a.ts") None None)%string.
Proof.
  apply (explain_file_wins sample_world sample_remote "a.ts"
           (Some "x = 1"%string) None None).
  discriminate.
Defined.









(** ** Results in any completion order *)

Lemma settle_sound {A} (vs : list A) (order : list nat)
  (values : list (option A)) (l : list A) :
  agrees vs values ->
  settle (map Ok vs) order values = Some (Ok l) -> l = vs.
Proof.
  change (map Ok vs) with (Ok <$> vs).
  revert values. induction order as [|j rest IH]; intros values Hag; [done|].
  cbn [settle]. rewrite list_lookup_fmap.
  destruct (vs !! j) as [v|] eqn:Hv; cbn; [|by apply IH].
  pose proof (agrees_insert vs values j v Hag Hv) as Hag'.
  destruct (mapM id (<[j:=Some v]> values)) as [l'|] eqn:Hm; [|by apply IH].
  intros [= <-]. by eapply agrees_full.
Qed.

Lemma orchestrate_sound w options files order outcomes :
  orchestrate w options files order = Some (Ok outcomes) ->
  outcomes = map (outcome_of w options) files.
Proof.
  unfold orchestrate, Promise_all. rewrite dispatch_fulfilled.
  destruct (map Ok (map (outcome_of w options) files)) eqn:Hps.
  { destruct files; [|discriminate]. by intros [= <-]. }
  rewrite <- Hps. apply settle_sound. split.
  - by rewrite length_replicate, length_map.
  - intros i v [H _]%lookup_replicate. discriminate H.
Qed.

(** X18. Whenever a scan has results, in whatever order the analyses
    completed, they are what [analyzeFile] returns for each file, file by
    file in the order of the file list, and the number of files announced
    by the spinner is the number of outcomes. *)
Theorem scan_results_positional (join : string -> string -> string) w options
  (order : list nat) (outcomes : list Outcome) :
  results (scan join w options order) = Some outcomes ->
  outcomes = map (outcome_of w options) (scan_files join w options)
  /\ SpinnerFound (length outcomes) ∈ log (scan join w options order)
  /\ (forall i file,
        scan_files join w options !! i = Some file ->
        exists outcome,
          outcomes !! i = Some outcome
          /\ snd (analyzeFile w file options) = Ok outcome).
Proof.
  intros Hrun. apply scan_results in Hrun as (Horch & _ & Hlog).
  apply orchestrate_sound in Horch. subst outcomes.
  split; [reflexivity|]. split.
  - rewrite Hlog, length_map.
    apply list_elem_of_further, list_elem_of_here.
  - intros i file Hfile. exists (outcome_of w options file).
    split; [|apply analyzeFile_outcome_of].
    change (map ?f ?l) with (f <$> l). by rewrite list_lookup_fmap, Hfile.
Qed.

Lemma scan_results_positional_witness :
  sample_outcomes
  = map (outcome_of sample_world (scan_directory "root"))
        (scan_files slash_join sample_world (scan_directory "root")).
Proof.
  apply (scan_results_positional slash_join sample_world
           (scan_directory "root") [1; 1; 2; 0] sample_outcomes).
  reflexivity.
Defined.

(** ** Colours *)


